(** * Neo4jHandler: sentiment tagging and similarity-edge recomputation

    A shallow embedding of [backend/neo4j_handler.py].  The graph store is
    an explicit value threaded through the handler's methods; every Cypher
    query is a function on that value.  Text is a sequence of code points
    below 256 (Rocq's [string]), on which Python's [str.lower] and
    [str.split] are character-wise; the classifier is also given on
    arbitrary text, in [Unicode].  The connection is taken to be live:
    [ensure_connection] and the driver's life cycle are left out, and the
    only failures considered are those raised inside the recomputation. *)

From Stdlib Require Import Ascii NArith.
From stdpp Require Import base list gmap strings sorting.

Set Warnings "-clear-no-such-hyp".

(** ** Python string primitives *)

Module Py.

(** [str.isspace] on one character, as [str.split()] uses it. *)
Definition is_space (c : ascii) : bool :=
  let n := N_of_ascii c in
  ((9 <=? n) && (n <=? 13) || (28 <=? n) && (n <=? 32)
   || (n =? 133) || (n =? 160))%N.

(** [str.lower] on one character. *)
Definition lower_char (c : ascii) : ascii :=
  let n := N_of_ascii c in
  if ((65 <=? n) && (n <=? 90)
      || (192 <=? n) && (n <=? 222) && negb (n =? 215))%N
  then ascii_of_N (n + 32) else c.

Fixpoint lower (s : string) : string :=
  match s with
  | EmptyString => EmptyString
  | String c s' => String (lower_char c) (lower s')
  end.

(** The scanning loop of [str.split()] with no separator: [cur] is the
    token being read, pushed when a whitespace character or the end of
    the text is met; empty tokens are never pushed. *)
Definition push (cur : string) (acc : list string) : list string :=
  match cur with
  | EmptyString => acc
  | _ => cur :: acc
  end.

Fixpoint split_go (cur : string) (s : string) : list string :=
  match s with
  | EmptyString => push cur []
  | String c s' =>
      if is_space c then push cur (split_go EmptyString s')
      else split_go (cur +:+ String c EmptyString) s'
  end.

Definition split (s : string) : list string := split_go EmptyString s.

(** [sep.join(l)] *)
Fixpoint join (sep : string) (l : list string) : string :=
  match l with
  | [] => EmptyString
  | [x] => x
  | x :: l' => x +:+ sep +:+ join sep l'
  end.

(** [filter(None, l)] on a list of strings drops the empty ones. *)
Definition truthy (x : string) : Prop := x ≠ EmptyString.
Definition filter_none (l : list string) : list string := filter truthy l.

End Py.

(** ** Sentiment *)

Inductive Sentiment := Positive | Negative | Neutral.

Definition positive_words : gset string :=
  {[ "good"; "great"; "awesome"; "excellent";
     "happy"; "love"; "wonderful"; "amazing" ]}.

Definition negative_words : gset string :=
  {[ "bad"; "terrible"; "awful"; "hate"; "sad"; "angry"; "poor" ]}.

(** [sum(1 for w in words if w in lexicon)] *)
Definition lexicon_count (lexicon : gset string) (words : list string) : nat :=
  length (filter (λ w, w ∈ lexicon) words).

Definition _analyze_sentiment (content : string) : Sentiment :=
  let words := Py.split (Py.lower content) in
  let pos_count := lexicon_count positive_words words in
  let neg_count := lexicon_count negative_words words in
  if decide (neg_count < pos_count) then Positive
  else if decide (pos_count < neg_count) then Negative
  else Neutral.

(** ** The classifier on arbitrary text

    A Python string is a sequence of code points.  [str.lower] and the
    whitespace test of [str.split] are builtins of the interpreter, not code
    of the handler: in [Unicode] they are the parameters [lower] and
    [isspace], and the text is any list of code points. *)

Definition codes (s : string) : list N :=
  N_of_ascii <$> String.list_ascii_of_string s.

Module Unicode.

Definition positive_words : gset (list N) :=
  {[ codes "good"; codes "great"; codes "awesome"; codes "excellent";
     codes "happy"; codes "love"; codes "wonderful"; codes "amazing" ]}.

Definition negative_words : gset (list N) :=
  {[ codes "bad"; codes "terrible"; codes "awful"; codes "hate";
     codes "sad"; codes "angry"; codes "poor" ]}.

(** [sum(1 for w in words if w in lexicon)] *)
Definition lexicon_count (lexicon : gset (list N)) (words : list (list N))
  : nat :=
  length (filter (λ w, w ∈ lexicon) words).

Section builtins.
Context (lower : list N → list N) (isspace : N → bool).

Definition push (cur : list N) (acc : list (list N)) : list (list N) :=
  match cur with
  | [] => acc
  | _ :: _ => cur :: acc
  end.

(** The scanning loop of [str.split()], as in [Py.split_go]. *)
Fixpoint split_go (cur s : list N) : list (list N) :=
  match s with
  | [] => push cur []
  | c :: s' =>
      if isspace c then push cur (split_go [] s')
      else split_go (cur ++ [c]) s'
  end.

Definition split (s : list N) : list (list N) := split_go [] s.

Definition _analyze_sentiment (content : list N) : Sentiment :=
  let words := split (lower content) in
  let pos_count := lexicon_count positive_words words in
  let neg_count := lexicon_count negative_words words in
  if decide (neg_count < pos_count) then Positive
  else if decide (pos_count < neg_count) then Negative
  else Neutral.

End builtins.

(** What splitting on whitespace means: the text is a run of whitespace,
    or a run of whitespace, then a non-empty word free of whitespace that
    either ends the text or is followed by whitespace, then the rest with
    its own tokens. *)
Inductive tokens_of (isspace : N → bool) : list N → list (list N) → Prop :=
| tokens_blank gap :
    Forall (λ c, isspace c = true) gap →
    tokens_of isspace gap []
| tokens_word gap w rest ts :
    Forall (λ c, isspace c = true) gap →
    w ≠ [] →
    Forall (λ c, isspace c = false) w →
    (rest = [] ∨ ∃ c rest', rest = c :: rest' ∧ isspace c = true) →
    tokens_of isspace rest ts →
    tokens_of isspace (gap ++ w ++ rest) (w :: ts).

(** Occurrences of one word, and of any word of a lexicon, in a token
    list (counted with repetition). *)
Definition occurrences (w : list N) (words : list (list N)) : nat :=
  length (filter (λ x, x = w) words).

Definition lexicon_occurrences (lexicon : gset (list N))
    (words : list (list N)) : nat :=
  sum_list ((λ w, occurrences w words) <$> elements lexicon).

End Unicode.

(** The builtins on text of code points below 256, where they are those of
    [Py]. *)
Definition text_of (t : list N) : string :=
  String.string_of_list_ascii (ascii_of_N <$> t).

Definition latin1_lower (t : list N) : list N := codes (Py.lower (text_of t)).

Definition latin1_isspace (c : N) : bool := Py.is_space (ascii_of_N c).

(** ** The graph store

    [User] and [Post] nodes, the [POSTED_BY] edge of a post (kept as the
    [user_id] of the user it points to) and the [SIMILAR_CONTENT] edges
    (pairs of [user_id]s, source first).  Lists follow the store's scan
    order.  The [user_id] stands for the node: the model is that of stores
    whose users have distinct ids ([unique_ids]), which every operation of
    the handler keeps. *)

Record User := mkUser { user_id : string; name : string }.

Record Post := mkPost {
  post_id : string;
  owner : string;
  content : string;
  sentiment : Sentiment;
  timestamp : string;
  deleted : option bool
}.

Definition Edge : Type := string * string.

Record Store := mkStore {
  users : list User;
  posts : list Post;
  similar : list Edge
}.

Global Instance Sentiment_eq_dec : EqDecision Sentiment.
Proof. solve_decision. Defined.
Global Instance User_eq_dec : EqDecision User.
Proof. solve_decision. Defined.
Global Instance Post_eq_dec : EqDecision Post.
Proof. solve_decision. Defined.

Definition set_users (us : list User) (s : Store) : Store :=
  mkStore us (posts s) (similar s).
Definition set_posts (ps : list Post) (s : Store) : Store :=
  mkStore (users s) ps (similar s).
Definition set_similar (es : list Edge) (s : Store) : Store :=
  mkStore (users s) (posts s) es.

(** [MATCH (u:User {user_id: $user_id})] *)
Definition match_user (uid : string) (s : Store) : list User :=
  filter (λ u, user_id u = uid) (users s).

(** ** Python dictionaries: insertion-ordered, one entry per key *)

Section dict.
Context {V : Type}.

Fixpoint dict_set (k : string) (v : V) (d : list (string * V))
  : list (string * V) :=
  match d with
  | [] => [(k, v)]
  | (k', v') :: d' =>
      if decide (k' = k) then (k, v) :: d' else (k', v') :: dict_set k v d'
  end.

Fixpoint dict_get (k : string) (d : list (string * V)) : option V :=
  match d with
  | [] => None
  | (k', v') :: d' => if decide (k' = k) then Some v' else dict_get k d'
  end.

Definition dict_keys (d : list (string * V)) : list string := d.*1.

(** [{key(x): val(x) for x in l}]: one assignment per element, in order. *)
Definition dict_step {A} (key : A → string) (val : A → V)
    (d : list (string * V)) (x : A) : list (string * V) :=
  dict_set (key x) (val x) d.

Definition dict_comp {A} (key : A → string) (val : A → V) (l : list A)
  : list (string * V) :=
  foldl (dict_step key val) [] l.
End dict.

(** ** Effects: store state, emitted events, exceptions *)

Inductive Step := AtFetch | AtBuild | AtClear | AtWrite.

Inductive Exn :=
| UserNotFound (uid : string)
| Failure (at_step : Step).

Inductive Event :=
| EvCreatePost (uid : string)
| EvFetch
| EvClear
| EvWrite (rels : list Edge)
| EvLogError (e : Exn).

Global Instance Step_eq_dec : EqDecision Step.
Proof. solve_decision. Defined.
Global Instance Exn_eq_dec : EqDecision Exn.
Proof. solve_decision. Defined.
Global Instance Event_eq_dec : EqDecision Event.
Proof. solve_decision. Defined.

(** A computation runs on a store, may raise, leaves a store behind (what
    was committed before a raise stays committed) and emits the queries it
    issued and the error lines it logged. *)
Record Outcome (A : Type) := mkOutcome {
  result : Exn + A;
  final : Store;
  events : list Event
}.
Arguments mkOutcome {A} _ _ _.
Arguments result {A} _.
Arguments final {A} _.
Arguments events {A} _.

Definition M (A : Type) : Type := Store → Outcome A.

Definition raise {A} (e : Exn) : M A := λ s, mkOutcome (inl e) s [].
Definition emit (ev : Event) : M unit := λ s, mkOutcome (inr ()) s [ev].
Definition get_store : M Store := λ s, mkOutcome (inr s) s [].
Definition put_store (s' : Store) : M unit := λ _, mkOutcome (inr ()) s' [].

Global Instance M_ret : MRet M := λ A a s, mkOutcome (inr a) s [].

Global Instance M_bind : MBind M := λ A B k m s,
  let o := m s in
  match result o with
  | inl e => mkOutcome (inl e) (final o) (events o)
  | inr a =>
      let o' := k a (final o) in
      mkOutcome (result o') (final o') (events o ++ events o')
  end.

(** [try: m  except Exception as e: h e] *)
Definition try_except {A} (m : M A) (h : Exn → M A) : M A := λ s,
  let o := m s in
  match result o with
  | inl e =>
      let o' := h e (final o) in
      mkOutcome (result o') (final o') (events o ++ events o')
  | inr a => o
  end.

(** The environment decides which step of a recomputation fails. *)
Definition Faults : Type := Step → bool.
Definition no_faults : Faults := λ _, false.

Definition checkpoint (faults : Faults) (st : Step) : M unit :=
  if faults st then raise (Failure st) else mret ().

(** ** Users *)

(** [MERGE (u:User {user_id: $user_id}) ON CREATE SET u.name = $name
    ON MATCH SET u.name = $name RETURN u], then [result.single()]. *)
Definition create_user (uid nm : string) : M (option User) := λ s,
  let s' :=
    match match_user uid s with
    | [] => set_users (users s ++ [mkUser uid nm]) s
    | _ :: _ =>
        set_users
          ((λ u, if decide (user_id u = uid) then mkUser uid nm else u)
             <$> users s) s
    end in
  mkOutcome (inr (head (match_user uid s'))) s' [].

(** ** Posts *)

(** The query of [create_post]: one post is created per matched user;
    [uuid k] is the [k]-th value of [randomUUID()] and [now] the value of
    [datetime()] in this query.  [result.single()] is the first row. *)
Definition created_posts (uuid : nat → string) (now : string)
    (uid text : string) (tag : Sentiment) (s : Store) : list Post :=
  imap (λ k _, mkPost (uuid k) uid text tag now None) (match_user uid s).

Definition insert_post (uuid : nat → string) (now : string)
    (uid text : string) (tag : Sentiment) : M (option Post) := λ s,
  let created := created_posts uuid now uid text tag s in
  mkOutcome (inr (head created)) (set_posts (posts s ++ created) s)
    [EvCreatePost uid].

(** Rows of [get_recent_posts]. *)
Record RecentPost := mkRecentPost {
  r_post_id : string;
  r_content : string;
  r_sentiment : Sentiment;
  r_timestamp : string;
  r_user_name : string;
  r_user_id : string
}.

Definition recent_row (p : Post) (u : User) : RecentPost :=
  mkRecentPost (post_id p) (content p) (sentiment p) (timestamp p)
    (name u) (user_id u).

(** [ORDER BY p.timestamp DESC]: [a] may come before [b].  The property
    is the string [toString(datetime())], so the order is that of strings. *)
Definition newer_first (a b : RecentPost) : Prop :=
  String.le (r_timestamp b) (r_timestamp a).

Global Instance newer_first_dec : RelDecision newer_first.
Proof. intros a b. unfold newer_first. apply _. Defined.

(** [MATCH (p:Post)-[:POSTED_BY]->(u:User) WHERE p.deleted IS NULL] *)
Definition recent_rows (s : Store) : list RecentPost :=
  p ← filter (λ p, deleted p = None) (posts s);
  recent_row p <$> match_user (owner p) s.

Definition get_recent_posts (s : Store) : list RecentPost :=
  take 10 (merge_sort newer_first (recent_rows s)).

(** ** Relationships *)

(** [MATCH (u:User) OPTIONAL MATCH (u)<-[:POSTED_BY]-(p:Post)
    WITH u, COLLECT(p.content) AS contents WHERE size(contents) > 0
    RETURN u.user_id AS user_id, contents] *)
Definition contents_of (s : Store) (uid : string) : list string :=
  content <$> filter (λ p, owner p = uid) (posts s).

Definition users_with_contents (s : Store) : list (string * list string) :=
  filter (λ r, 0 < length r.2)
    ((λ u, (user_id u, contents_of s (user_id u))) <$> users s).

Definition fetch (faults : Faults) : M (list (string * list string)) :=
  emit EvFetch;;
  checkpoint faults AtFetch;;
  s ← get_store;
  mret (users_with_contents s).

(** [MATCH ()-[r:SIMILAR_CONTENT]->() DELETE r] *)
Definition _clear_relationships (faults : Faults) : M unit :=
  emit EvClear;;
  checkpoint faults AtClear;;
  s ← get_store;
  put_store (set_similar [] s).

(** [MERGE (u1)-[:SIMILAR_CONTENT]->(u2)] for one row of the batch; the
    two [MATCH]es drop the row when an endpoint is not a stored user. *)
Definition merge_edge (s : Store) (es : list Edge) (rel : Edge) : list Edge :=
  match match_user rel.1 s, match_user rel.2 s with
  | _ :: _, _ :: _ => if decide (rel ∈ es) then es else es ++ [rel]
  | _, _ => es
  end.

Definition _create_relationships (faults : Faults) (relationships : list Edge)
  : M unit :=
  emit (EvWrite relationships);;
  checkpoint faults AtWrite;;
  s ← get_store;
  put_store (set_similar (foldl (merge_edge s) (similar s) relationships) s).

Definition min_common_words : nat := 1.

(** The dictionary comprehensions building [user_contents] and
    [user_words]. *)
Definition user_contents (users_data : list (string * list string))
  : list (string * string) :=
  dict_comp fst (λ user, Py.join " " (Py.filter_none user.2)) users_data.

Definition user_words (users_data : list (string * list string))
  : list (string * gset string) :=
  dict_comp fst (λ kv, list_to_set (Py.split (Py.lower kv.2)))
    (user_contents users_data).

(** [user_words[k]], for [k] a key of the dictionary. *)
Definition words_of (d : list (string * gset string)) (k : string)
  : gset string :=
  default ∅ (dict_get k d).

(** The double loop over [i < j]. *)
Fixpoint pair_loop (d : list (string * gset string)) (user_ids : list string)
  : list Edge :=
  match user_ids with
  | [] => []
  | ui :: rest =>
      (uj ← rest;
       if decide (min_common_words ≤ size (words_of d ui ∩ words_of d uj))
       then [(ui, uj); (uj, ui)] else [])
      ++ pair_loop d rest
  end.

Definition relationships_of (users_data : list (string * list string))
  : list Edge :=
  let d := user_words users_data in
  pair_loop d (dict_keys d).

Definition recompute (faults : Faults) : M unit :=
  users_data ← fetch faults;
  if decide (length users_data < 2) then mret ()
  else
    checkpoint faults AtBuild;;
    _clear_relationships faults;;
    let relationships := relationships_of users_data in
    match relationships with
    | [] => mret ()
    | _ :: _ => _create_relationships faults relationships
    end.

Definition log_error (e : Exn) : M unit := emit (EvLogError e).

Definition _update_relationships (faults : Faults) : M unit :=
  try_except (recompute faults) (λ e, log_error e;; log_error e).

Definition create_post (uuid : nat → string) (now : string) (faults : Faults)
    (uid text : string) : M Post :=
  let tag := _analyze_sentiment text in
  record ← insert_post uuid now uid text tag;
  match record with
  | None => raise (UserNotFound uid)
  | Some p => _update_relationships faults;; mret p
  end.

(** ** Notions the specification is worded in *)

(** Tokens are never empty and hold no whitespace. *)
Definition is_token (w : string) : Prop :=
  w ≠ EmptyString
  ∧ Forall (λ c, Py.is_space c = false) (String.list_ascii_of_string w).

(** Occurrences of one word in a token list, and of any word of a lexicon
    (counted with repetition). *)
Definition occurrences (w : string) (words : list string) : nat :=
  length (filter (λ x, x = w) words).

Definition lexicon_occurrences (lexicon : gset string) (words : list string)
  : nat :=
  sum_list ((λ w, occurrences w words) <$> elements lexicon).

(** Two keys of [user_words] share enough words. *)
Definition shares (d : list (string * gset string)) (a b : string) : Prop :=
  min_common_words ≤ size (words_of d a ∩ words_of d b).

(** A user has content when at least one post points to it. *)
Definition has_post (s : Store) (uid : string) : Prop :=
  Exists (λ p, owner p = uid) (posts s).

Definition content_bearing (s : Store) : list User :=
  filter (λ u, has_post s (user_id u)) (users s).

(** The vocabulary set of the glossary: the distinct lowercase
    whitespace-delimited tokens across all of a user's post content. *)
Definition spec_vocabulary (s : Store) (uid : string) : gset string :=
  ⋃ ((λ p, list_to_set (Py.split (Py.lower (content p))))
       <$> filter (λ p, owner p = uid) (posts s)).

(** The edge-set formula of the specification, over the fetched users. *)
Definition spec_similar (s : Store) (a b : string) : Prop :=
  a ≠ b
  ∧ a ∈ user_id <$> content_bearing s
  ∧ b ∈ user_id <$> content_bearing s
  ∧ min_common_words ≤ size (spec_vocabulary s a ∩ spec_vocabulary s b).

(** No two stored users share a [user_id]. *)
Definition unique_ids (s : Store) : Prop := NoDup (user_id <$> users s).

(** Store queries among the events, as opposed to log lines. *)
Definition is_query (ev : Event) : Prop :=
  match ev with EvLogError _ => False | _ => True end.

Global Instance is_query_dec ev : Decision (is_query ev).
Proof. destruct ev; simpl; apply _. Defined.

(** ** The connection

    The handler's [driver] attribute and its calls into the driver library.
    The [k]-th such call is answered by [replies env k]; [retries env k] is
    the number of retries the [max_time=30] budget of the [backoff] decorator
    leaves to a [connect] started when [k] calls had been made. *)

Inductive Reply := Fine | Unavailable | Broken.

(** [ServiceUnavailable] or [SessionExpired], which [backoff] retries, and
    any other exception. *)
Inductive ConnExn := ServiceDown | OtherError.

Record Env := mkEnv {
  replies : nat → Reply;
  retries : nat → nat
}.

(** [driver = Some k]: the driver object made by the [k]-th call. *)
Record Conn := mkConn {
  driver : option nat;
  calls : nat;
  error_lines : nat
}.

Definition exn_of (r : Reply) : option ConnExn :=
  match r with
  | Fine => None
  | Unavailable => Some ServiceDown
  | Broken => Some OtherError
  end.

Definition call (env : Env) (c : Conn) : Reply * Conn :=
  (replies env (calls c), mkConn (driver c) (S (calls c)) (error_lines c)).

Definition log_line (c : Conn) : Conn :=
  mkConn (driver c) (calls c) (S (error_lines c)).

Definition set_driver (d : option nat) (c : Conn) : Conn :=
  mkConn d (calls c) (error_lines c).

(** [close]: an exception of [driver.close()] is logged, and [finally]
    drops the driver. *)
Definition close (env : Env) (c : Conn) : Conn :=
  match driver c with
  | None => c
  | Some _ =>
      let '(r, c1) := call env c in
      set_driver None (match exn_of r with None => c1 | Some _ => log_line c1 end)
  end.

(** [check_connection]: the probe [RETURN 1]; on an exception (among them
    the attribute error of a missing driver) log, [close], re-raise.
    The result is the exception raised, if any. *)
Definition check_connection (env : Env) (c : Conn) : option ConnExn * Conn :=
  match driver c with
  | None => (Some OtherError, close env (log_line c))
  | Some _ =>
      let '(r, c1) := call env c in
      match exn_of r with
      | None => (None, c1)
      | Some e => (Some e, close env (log_line c1))
      end
  end.

(** The body of [connect]. *)
Definition connect_once (env : Env) (c : Conn) : option ConnExn * Conn :=
  match driver c with
  | Some _ => (None, c)
  | None =>
      let '(r, c1) := call env c in
      match exn_of r with
      | Some e => (Some e, log_line c1)
      | None =>
          match check_connection env (set_driver (Some (calls c)) c1) with
          | (None, c2) => (None, c2)
          | (Some e, c2) => (Some e, log_line c2)
          end
      end
  end.

(** [connect] under [@backoff.on_exception]: a [ServiceDown] is retried
    while the budget lasts. *)
Fixpoint connect_retry (env : Env) (n : nat) (c : Conn)
  : option ConnExn * Conn :=
  match connect_once env c with
  | (Some ServiceDown, c1) =>
      match n with
      | 0 => (Some ServiceDown, c1)
      | S n' => connect_retry env n' c1
      end
  | out => out
  end.

Definition connect (env : Env) (c : Conn) : option ConnExn * Conn :=
  connect_retry env (retries env (calls c)) c.

Definition ensure_connection (env : Env) (c : Conn) : option ConnExn * Conn :=
  let attempt :=
    match driver c with
    | None =>
        match connect env c with
        | (None, c1) => check_connection env c1
        | out => out
        end
    | Some _ => check_connection env c
    end in
  match attempt with
  | (None, c1) => (None, c1)
  | (Some _, c1) => connect env (close env c1)
  end.

(** [__init__] *)
Definition init (env : Env) : option ConnExn * Conn :=
  connect env (mkConn None 0 0).

(** The last call made was answered. *)
Definition probed (env : Env) (c : Conn) : Prop :=
  ∃ k, calls c = S k ∧ replies env k = Fine.

(** A server that drops the first probe and the first reconnection, then
    answers. *)
Definition flaky_env : Env :=
  mkEnv (λ k, match k with 1 | 3 => Unavailable | _ => Fine end) (λ _, 2).

(** ** Listings *)

(** [MATCH (u:User) RETURN u.user_id AS user_id, u.name AS name
    ORDER BY u.name] *)
Definition by_name (a b : User) : Prop := String.le (name a) (name b).

Global Instance by_name_dec : RelDecision by_name.
Proof. intros a b. unfold by_name. apply _. Defined.

Definition get_all_users (s : Store) : list User :=
  merge_sort by_name (users s).

(** Rows of [get_user_posts]. *)
Record UserPost := mkUserPost {
  u_post_id : string;
  u_content : string;
  u_sentiment : Sentiment;
  u_timestamp : string
}.

Definition user_post_row (p : Post) : UserPost :=
  mkUserPost (post_id p) (content p) (sentiment p) (timestamp p).

(** [ORDER BY p.timestamp DESC], on the stored strings. *)
Definition later_first (a b : UserPost) : Prop :=
  String.le (u_timestamp b) (u_timestamp a).

Global Instance later_first_dec : RelDecision later_first.
Proof. intros a b. unfold later_first. apply _. Defined.

(** [MATCH (p:Post)-[:POSTED_BY]->(u:User {user_id: $user_id})] *)
Definition user_post_rows (s : Store) (uid : string) : list UserPost :=
  p ← filter (λ p, owner p = uid) (posts s);
  (λ _, user_post_row p) <$> match_user uid s.

Definition get_user_posts (s : Store) (uid : string) : list UserPost :=
  merge_sort later_first (user_post_rows s uid).

(** ** Sequences of calls *)

Inductive Op :=
| OpCreateUser (uid nm : string)
| OpCreatePost (uuid : nat → string) (now : string) (faults : Faults)
    (uid text : string).

Definition run_op (s : Store) (op : Op) : Store :=
  match op with
  | OpCreateUser uid nm => final (create_user uid nm s)
  | OpCreatePost uuid now faults uid text =>
      final (create_post uuid now faults uid text s)
  end.

Definition run_ops (ops : list Op) (s : Store) : Store := foldl run_op s ops.

Definition empty_store : Store := mkStore [] [] [].

(** No recomputation of the call is made to fail. *)
Definition fault_free (op : Op) : Prop :=
  match op with
  | OpCreateUser _ _ => True
  | OpCreatePost _ _ faults _ _ => ∀ st, faults st = false
  end.

(** Every post points to a stored user. *)
Definition no_orphans (s : Store) : Prop :=
  ∀ p, p ∈ posts s → owner p ∈ user_id <$> users s.

(** Every stored edge is a pair of the formula; the stored edges are
    exactly the pairs of the formula. *)
Definition edges_sound (s : Store) : Prop :=
  ∀ a b, (a, b) ∈ similar s → spec_similar s a b.

Definition edges_exact (s : Store) : Prop :=
  ∀ a b, (a, b) ∈ similar s ↔ spec_similar s a b.

(** What every sequence of calls keeps: distinct ids, no orphan post, no
    edge stored twice, every edge justified by the formula, and every edge
    stored with its reverse. *)
Definition well_formed (s : Store) : Prop :=
  unique_ids s
  ∧ no_orphans s
  ∧ NoDup (similar s)
  ∧ edges_sound s
  ∧ (∀ a b, (a, b) ∈ similar s → (b, a) ∈ similar s).

(** Both endpoints of a row of the batch are stored users. *)
Definition stored_pair (s : Store) (rel : Edge) : Prop :=
  match_user rel.1 s ≠ [] ∧ match_user rel.2 s ≠ [].

(** A timestamp string strictly above another in the order of strings. *)
Definition sorts_after (t t' : string) : Prop := String.le t' t ∧ t ≠ t'.

(** The instant an ISO-8601 rendering [YYYY-MM-DDTHH:MM:SS[.f...]Z]
    denotes, as a key that grows with time: the fourteen digits of date and
    time followed by the fraction in nanoseconds. *)
Definition digit (c : ascii) : option N :=
  let n := N_of_ascii c in
  if ((48 <=? n) && (n <=? 57))%N then Some (n - 48)%N else None.

Fixpoint number (acc : N) (cs : list ascii) : option N :=
  match cs with
  | [] => Some acc
  | c :: cs' =>
      match digit c with
      | Some d => number (10 * acc + d)%N cs'
      | None => None
      end
  end.

Definition fraction_nanos (cs : list ascii) : option N :=
  match reverse cs with
  | "Z"%char :: rev_digits =>
      let ds := reverse rev_digits in
      if decide (0 < length ds ≤ 9)
      then f ← number 0 ds; Some (f * 10 ^ N.of_nat (9 - length ds))%N
      else None
  | _ => None
  end.

Definition utc_instant (ts : string) : option N :=
  match String.list_ascii_of_string ts with
  | y1 :: y2 :: y3 :: y4 :: "-"%char :: m1 :: m2 :: "-"%char :: d1 :: d2
    :: "T"%char :: h1 :: h2 :: ":"%char :: n1 :: n2 :: ":"%char :: s1 :: s2
    :: rest =>
      whole ← number 0 [y1; y2; y3; y4; m1; m2; d1; d2; h1; h2; n1; n2; s1; s2];
      nanos ← match rest with
              | ["Z"%char] => Some 0%N
              | "."%char :: frac => fraction_nanos frac
              | _ => None
              end;
      Some (whole * 1000000000 + nanos)%N
  | _ => None
  end.

(** ** Sample stores *)

Definition sample_post (pid uid text ts : string) (del : option bool) : Post :=
  mkPost pid uid text (_analyze_sentiment text) ts del.

(** The three users of the specification's worked example, with an edge
    left over from an earlier state. *)
Definition store_abc : Store :=
  mkStore
    [mkUser "A" "Ann"; mkUser "B" "Bob"; mkUser "C" "Cat"]
    [sample_post "p1" "A" "I love dogs" "2024-05-01T10:00:00Z" None;
     sample_post "p2" "B" "I love cats" "2024-05-01T11:00:00Z" None;
     sample_post "p3" "C" "totally unrelated topic" "2024-05-01T12:00:00Z" None]
    [("C", "A")].

(** One user with content, and an edge already stored. *)
Definition store_stale : Store :=
  mkStore
    [mkUser "A" "Ann"; mkUser "B" "Bob"]
    [sample_post "p1" "A" "hello world" "2024-05-01T10:00:00Z" None]
    [("A", "B")].

(** Ann's only post carries the soft-delete marker. *)
Definition store_deleted : Store :=
  mkStore
    [mkUser "A" "Ann"; mkUser "B" "Bob"]
    [sample_post "p1" "A" "cats" "2024-05-01T10:00:00Z" (Some true);
     sample_post "p2" "B" "cats" "2024-05-01T11:00:00Z" None]
    [].

(** Ann's posts are all empty strings. *)
Definition store_blank : Store :=
  mkStore
    [mkUser "A" "Ann"; mkUser "B" "Bob"; mkUser "C" "Cat"]
    [sample_post "p1" "A" EmptyString "2024-05-01T10:00:00Z" None;
     sample_post "p2" "B" "good day" "2024-05-01T11:00:00Z" None;
     sample_post "p3" "A" EmptyString "2024-05-01T12:00:00Z" None;
     sample_post "p4" "C" "bad day" "2024-05-01T13:00:00Z" None]
    [].

(** Three posts a second apart at most; the first was made on a whole
    second, so that its rendering has no fraction. *)
Definition store_fraction : Store :=
  mkStore
    [mkUser "A" "Ann"]
    [sample_post "p1" "A" "one" "2024-05-01T10:00:01Z" None;
     sample_post "p2" "A" "two" "2024-05-01T10:00:01.123Z" None;
     sample_post "p3" "A" "three" "2024-05-01T10:00:00.250Z" None]
    [].

Definition sample_uuid (k : nat) : string :=
  match k with 0 => "uuid-0" | _ => "uuid-n" end.

Definition fail_at (st : Step) : Faults := λ st', bool_decide (st' = st).

(** Two users register, post, and one renames itself; one post is for an
    unknown user. *)
Definition sample_ops : list Op :=
  [OpCreateUser "A" "Ann";
   OpCreateUser "B" "Bob";
   OpCreatePost sample_uuid "2024-05-01T10:00:00Z" no_faults "A" "I love dogs";
   OpCreatePost sample_uuid "2024-05-01T11:00:00Z" no_faults "Z" "I love fish";
   OpCreatePost sample_uuid "2024-05-01T12:00:00Z" no_faults "B" "I LOVE cats";
   OpCreateUser "A" "Anna"].

(** * Properties *)

(** ** Text primitives *)

Lemma push_app cur l1 l2 : Py.push cur (l1 ++ l2) = Py.push cur l1 ++ l2.
Proof. by destruct cur. Qed.

Lemma split_go_space s1 cur c s2 :
  Py.is_space c = true →
  Py.split_go cur (s1 +:+ String c s2)
  = Py.split_go cur s1 ++ Py.split s2.
Proof.
  intros Hc. revert cur.
  induction s1 as [|a s1 IH]; intros cur; simpl.
  - rewrite Hc. by rewrite <-push_app.
  - destruct (Py.is_space a); [|apply IH].
    by rewrite IH, push_app.
Qed.

Lemma split_join l :
  Py.split (Py.join " " l) = mjoin (Py.split <$> l).
Proof.
  induction l as [|x [|y l] IH]; [done| |].
  - simpl. by rewrite app_nil_r.
  - change (Py.join " " (x :: y :: l))
      with (x +:+ String " "%char (Py.join " " (y :: l))).
    unfold Py.split at 1. rewrite split_go_space by done.
    by rewrite IH.
Qed.

Lemma lower_app s1 s2 : Py.lower (s1 +:+ s2) = Py.lower s1 +:+ Py.lower s2.
Proof. induction s1 as [|a s1 IH]; simpl; [done|]. by rewrite IH. Qed.

Lemma lower_join l :
  Py.lower (Py.join " " l) = Py.join " " (Py.lower <$> l).
Proof.
  induction l as [|x [|y l] IH]; [done..|].
  change (Py.join " " (x :: y :: l))
    with (x +:+ " " +:+ Py.join " " (y :: l)).
  rewrite !lower_app, IH. done.
Qed.

Lemma list_ascii_app s1 s2 :
  String.list_ascii_of_string (s1 +:+ s2)
  = String.list_ascii_of_string s1 ++ String.list_ascii_of_string s2.
Proof. induction s1 as [|a s1 IH]; simpl; [done|]. by rewrite IH. Qed.

Lemma split_go_tokens s cur :
  Forall (λ c, Py.is_space c = false) (String.list_ascii_of_string cur) →
  Forall is_token (Py.split_go cur s).
Proof.
  revert cur. induction s as [|a s IH]; intros cur Hcur; simpl.
  - destruct cur; simpl; [constructor|].
    constructor; [by split|constructor].
  - destruct (Py.is_space a) eqn:Ha.
    + assert (Forall is_token (Py.split_go EmptyString s)) as Hs
        by (apply IH; constructor).
      destruct cur; simpl; [done|].
      constructor; [by split|done].
    + apply IH. rewrite list_ascii_app. apply Forall_app. split; [done|].
      simpl. by repeat constructor.
Qed.

Lemma split_tokens s : Forall is_token (Py.split s).
Proof. apply split_go_tokens. constructor. Qed.

(** ** Sentiment *)

Lemma sum_list_plus {A} (f g : A → nat) (l : list A) :
  sum_list ((λ x, f x + g x) <$> l) = sum_list (f <$> l) + sum_list (g <$> l).
Proof. induction l as [|x l IH]; csimpl; [done|]. rewrite IH. lia. Qed.

Lemma sum_indicator (w : string) (l : list string) :
  NoDup l →
  sum_list ((λ x, if decide (w = x) then 1 else 0) <$> l)
  = if decide (w ∈ l) then 1 else 0.
Proof.
  induction 1 as [|x l Hx Hl IH]; csimpl.
  - done.
  - rewrite IH.
    destruct (decide (w ∈ l)) as [Hin|Hin], (decide (w = x)) as [Heq|Hne];
      case_decide; try done; set_solver.
Qed.

Lemma occurrences_cons x w ws :
  occurrences x (w :: ws) = (if decide (w = x) then 1 else 0) + occurrences x ws.
Proof.
  unfold occurrences. rewrite filter_cons. by destruct (decide (w = x)).
Qed.

Lemma lexicon_count_occurrences lexicon words :
  lexicon_count lexicon words = lexicon_occurrences lexicon words.
Proof.
  unfold lexicon_count, lexicon_occurrences.
  induction words as [|w ws IH].
  - simpl. induction (elements lexicon) as [|x l IHl]; csimpl; [done|]. exact IHl.
  - rewrite filter_cons.
    erewrite (list_fmap_ext _ (λ x, (if decide (w = x) then 1 else 0) + occurrences x ws));
      last by (intros; apply occurrences_cons).
    rewrite sum_list_plus, <-IH, sum_indicator by apply NoDup_elements.
    destruct (decide (w ∈ lexicon)) as [Hin|Hin].
    + rewrite decide_True by by apply elem_of_elements. done.
    + rewrite decide_False by by rewrite elem_of_elements. done.
Qed.

Lemma lexicons_disjoint : positive_words ## negative_words.
Proof.
  apply (bool_decide_eq_true_1 (positive_words ## negative_words)).
  vm_compute. reflexivity.
Qed.

Example sentiment_empty : _analyze_sentiment EmptyString = Neutral.
Proof. vm_compute. reflexivity. Qed.

Example sentiment_tie : _analyze_sentiment "Good food, BAD service" = Neutral.
Proof. vm_compute. reflexivity. Qed.

Example sentiment_repetition :
  _analyze_sentiment "bad but good Good	GOOD" = Positive.
Proof. vm_compute. reflexivity. Qed.

Example sentiment_verbatim : _analyze_sentiment "good, bad" = Negative.
Proof. vm_compute. reflexivity. Qed.

Example split_whitespace_runs :
  Py.split "  a b
c " = ["a"; "b"; "c"].
Proof. vm_compute. reflexivity. Qed.

(** The comparison of the counts, for the classifier of the store model. *)
Lemma analyze_sentiment_counts (content : string) :
  let words := Py.split (Py.lower content) in
  let pos := lexicon_occurrences positive_words words in
  let neg := lexicon_occurrences negative_words words in
  positive_words ## negative_words
  ∧ Forall is_token words
  ∧ (_analyze_sentiment content = Positive ↔ neg < pos)
  ∧ (_analyze_sentiment content = Negative ↔ pos < neg)
  ∧ (_analyze_sentiment content = Neutral ↔ pos = neg).
Proof.
  intros words pos neg.
  split; [apply lexicons_disjoint|]. split; [apply split_tokens|].
  subst pos neg.
  rewrite <-(lexicon_count_occurrences positive_words words),
          <-(lexicon_count_occurrences negative_words words).
  unfold _analyze_sentiment. cbv zeta. subst words.
  generalize (lexicon_count positive_words (Py.split (Py.lower content))).
  generalize (lexicon_count negative_words (Py.split (Py.lower content))).
  intros n p.
  destruct (decide (n < p)), (decide (p < n)); repeat split; intros; try done; lia.
Qed.

(** ** The classifier on arbitrary text *)

Section tokens.
Context (isspace : N → bool).

Lemma upush_app cur l1 l2 :
  Unicode.push cur (l1 ++ l2) = Unicode.push cur l1 ++ l2.
Proof. by destruct cur. Qed.

Lemma usplit_go_blank gap cur s :
  Forall (λ c, isspace c = true) gap →
  Unicode.split_go isspace cur (gap ++ s)
  = Unicode.push cur [] ++ Unicode.split isspace s
  ∨ gap = [].
Proof.
  intros Hgap. destruct Hgap as [|c gap Hc Hgap]; [by right|left].
  simpl. rewrite Hc. rewrite <-upush_app. simpl. f_equal.
  induction Hgap as [|c' gap Hc' Hgap IH]; [done|].
  simpl. by rewrite Hc'.
Qed.

Lemma usplit_blank gap s :
  Forall (λ c, isspace c = true) gap → Unicode.split isspace (gap ++ s) = Unicode.split isspace s.
Proof.
  intros Hgap. unfold Unicode.split.
  by destruct (usplit_go_blank gap [] s Hgap) as [->| ->].
Qed.

Lemma usplit_go_solid w cur s :
  Forall (λ c, isspace c = false) w →
  Unicode.split_go isspace cur (w ++ s)
  = Unicode.split_go isspace (cur ++ w) s.
Proof.
  intros Hw. revert cur. induction Hw as [|c w Hc Hw IH]; intros cur; simpl.
  - by rewrite app_nil_r.
  - rewrite Hc, IH. by rewrite <-app_assoc.
Qed.

Lemma usplit_go_end cur rest :
  cur ≠ [] →
  rest = [] ∨ (∃ c rest', rest = c :: rest' ∧ isspace c = true) →
  Unicode.split_go isspace cur rest = cur :: Unicode.split isspace rest.
Proof.
  intros Hcur [->|(c & rest' & -> & Hc)]; unfold Unicode.split; simpl;
    rewrite ?Hc; by destruct cur.
Qed.

Lemma tokens_of_split s ts :
  Unicode.tokens_of isspace s ts → Unicode.split isspace s = ts.
Proof.
  induction 1 as [gap Hgap|gap w rest ts Hgap Hne Hw Hrest _ IH].
  - rewrite <-(app_nil_r gap), usplit_blank by done. done.
  - rewrite usplit_blank by done. unfold Unicode.split.
    rewrite usplit_go_solid by done. simpl.
    rewrite usplit_go_end by done. by rewrite IH.
Qed.

Lemma tokens_of_cons_blank c s ts :
  isspace c = true →
  Unicode.tokens_of isspace s ts → Unicode.tokens_of isspace (c :: s) ts.
Proof.
  intros Hc Hs. destruct Hs as [gap Hgap|gap w rest ts Hgap Hne Hw Hrest Hts].
  - apply Unicode.tokens_blank. by constructor.
  - apply (Unicode.tokens_word isspace (c :: gap)); try done. by constructor.
Qed.

Lemma split_go_tokens_of s :
  Unicode.tokens_of isspace s (Unicode.split_go isspace [] s)
  ∧ ∀ cur, cur ≠ [] → Forall (λ c, isspace c = false) cur →
           Unicode.tokens_of isspace (cur ++ s)
             (Unicode.split_go isspace cur s).
Proof.
  induction s as [|c s [IH0 IH]].
  - split; [by apply Unicode.tokens_blank|].
    intros cur Hne Hcur. simpl. destruct cur as [|c0 cur]; [done|].
    rewrite app_nil_r.
    rewrite <-(app_nil_r (c0 :: cur)) at 1.
    apply (Unicode.tokens_word isspace [] (c0 :: cur) []); try done.
    + by left.
    + by apply Unicode.tokens_blank.
  - simpl. destruct (isspace c) eqn:Hc.
    + split; [by apply tokens_of_cons_blank|].
      intros cur Hne Hcur. destruct cur as [|c0 cur]; [done|]. simpl.
      apply (Unicode.tokens_word isspace [] (c0 :: cur) (c :: s)); try done.
      * right. by exists c, s.
      * by apply tokens_of_cons_blank.
    + split.
      * apply (IH [c]); [done|]. by constructor.
      * intros cur Hne Hcur.
        replace (cur ++ c :: s) with ((cur ++ [c]) ++ s)
          by by rewrite <-app_assoc.
        apply IH; [by destruct cur|].
        apply Forall_app. split; [done|]. by constructor.
Qed.

Lemma split_tokens_of s :
  Unicode.tokens_of isspace s (Unicode.split isspace s).
Proof. apply split_go_tokens_of. Qed.
End tokens.

Lemma count_indicator (w : list N) (l : list (list N)) :
  NoDup l →
  sum_list ((λ x, if decide (w = x) then 1 else 0) <$> l)
  = if decide (w ∈ l) then 1 else 0.
Proof.
  induction 1 as [|x l Hx Hl IH]; csimpl.
  - done.
  - rewrite IH.
    destruct (decide (w ∈ l)) as [Hin|Hin], (decide (w = x)) as [Heq|Hne];
      case_decide; try done; set_solver.
Qed.

Lemma unicode_occurrences_cons x w ws :
  Unicode.occurrences x (w :: ws)
  = (if decide (w = x) then 1 else 0) + Unicode.occurrences x ws.
Proof.
  unfold Unicode.occurrences. rewrite filter_cons.
  by destruct (decide (w = x)).
Qed.

Lemma unicode_count_occurrences lexicon words :
  Unicode.lexicon_count lexicon words
  = Unicode.lexicon_occurrences lexicon words.
Proof.
  unfold Unicode.lexicon_count, Unicode.lexicon_occurrences.
  induction words as [|w ws IH].
  - simpl. induction (elements lexicon) as [|x l IHl]; csimpl; [done|].
    exact IHl.
  - rewrite filter_cons.
    erewrite (list_fmap_ext _
      (λ x, (if decide (w = x) then 1 else 0) + Unicode.occurrences x ws));
      last by (intros; apply unicode_occurrences_cons).
    rewrite sum_list_plus, <-IH, count_indicator by apply NoDup_elements.
    destruct (decide (w ∈ lexicon)) as [Hin|Hin].
    + rewrite decide_True by by apply elem_of_elements. done.
    + rewrite decide_False by by rewrite elem_of_elements. done.
Qed.

Lemma unicode_lexicons_disjoint :
  Unicode.positive_words ## Unicode.negative_words.
Proof.
  apply (bool_decide_eq_true_1
           (Unicode.positive_words ## Unicode.negative_words)).
  vm_compute. reflexivity.
Qed.

(** C2: for every text, whatever [str.lower] and the whitespace test are,
    the lowercased text has exactly one list of whitespace-delimited tokens;
    the tag is positive iff the positive words occur among them, counted
    with repetition, strictly more often than the negative ones, negative
    iff strictly less often, and neutral on a tie, among them 0/0; the two
    lexicons are disjoint. *)
Theorem analyze_sentiment_tokens
    (lower : list N → list N) (isspace : N → bool) (content : list N) :
  Unicode.positive_words ## Unicode.negative_words
  ∧ ∃ tokens,
      Unicode.tokens_of isspace (lower content) tokens
      ∧ (∀ tokens', Unicode.tokens_of isspace (lower content) tokens' →
                    tokens' = tokens)
      ∧ let pos := Unicode.lexicon_occurrences Unicode.positive_words tokens in
        let neg := Unicode.lexicon_occurrences Unicode.negative_words tokens in
        let tag := Unicode._analyze_sentiment lower isspace content in
        (tag = Positive ↔ neg < pos)
        ∧ (tag = Negative ↔ pos < neg)
        ∧ (tag = Neutral ↔ pos = neg).
Proof.
  split; [apply unicode_lexicons_disjoint|].
  exists (Unicode.split isspace (lower content)). split_and!.
  - apply split_tokens_of.
  - intros tokens' Ht. symmetry. by apply tokens_of_split.
  - cbv zeta.
    rewrite <-(unicode_count_occurrences Unicode.positive_words),
            <-(unicode_count_occurrences Unicode.negative_words).
    unfold Unicode._analyze_sentiment. cbv zeta.
    generalize (Unicode.lexicon_count Unicode.positive_words
                  (Unicode.split isspace (lower content))).
    generalize (Unicode.lexicon_count Unicode.negative_words
                  (Unicode.split isspace (lower content))).
    intros n p.
    destruct (decide (n < p)), (decide (p < n));
      repeat split; intros; try done; lia.
Qed.

Example unicode_sentiment_latin1 :
  Unicode._analyze_sentiment latin1_lower latin1_isspace
    (codes "GOOD good	bad") = Positive.
Proof. vm_compute. reflexivity. Qed.

(** With no lowercasing the capitals are not lexicon words. *)
Example unicode_sentiment_no_lower :
  Unicode._analyze_sentiment (λ t, t) latin1_isspace
    (codes "GOOD good bad") = Neutral.
Proof. vm_compute. reflexivity. Qed.

(** On text of code points below 256 the classifier of the store model is
    the classifier above. *)

Lemma text_of_codes s : text_of (codes s) = s.
Proof.
  unfold text_of, codes. rewrite <-list_fmap_compose.
  assert (∀ l : list ascii, (ascii_of_N ∘ N_of_ascii) <$> l = l) as ->.
  { intros l. induction l as [|c l IH]; csimpl; [done|].
    by rewrite ascii_N_embedding, IH. }
  apply String.string_of_list_ascii_of_string.
Qed.

Lemma codes_inj s1 s2 : codes s1 = codes s2 → s1 = s2.
Proof. intros H. by rewrite <-(text_of_codes s1), H, text_of_codes. Qed.

Lemma codes_app s1 s2 : codes (s1 +:+ s2) = codes s1 ++ codes s2.
Proof. unfold codes. by rewrite list_ascii_app, fmap_app. Qed.

Lemma codes_nil s : codes s = [] ↔ s = EmptyString.
Proof. split; [|by intros ->]. by destruct s. Qed.

Lemma push_codes cur acc :
  Unicode.push (codes cur) (codes <$> acc) = codes <$> Py.push cur acc.
Proof. by destruct cur. Qed.

Lemma split_go_codes cur s :
  Unicode.split_go latin1_isspace (codes cur) (codes s)
  = codes <$> Py.split_go cur s.
Proof.
  revert cur. induction s as [|c s IH]; intros cur.
  - apply (push_codes cur []).
  - change (codes (String c s)) with (N_of_ascii c :: codes s). simpl.
    unfold latin1_isspace at 1. rewrite ascii_N_embedding.
    destruct (Py.is_space c).
    + rewrite <-push_codes. f_equal. apply (IH EmptyString).
    + rewrite <-IH. by rewrite codes_app.
Qed.

Lemma positive_words_codes :
  Unicode.positive_words = set_map codes positive_words.
Proof. vm_compute. reflexivity. Qed.

Lemma negative_words_codes :
  Unicode.negative_words = set_map codes negative_words.
Proof. vm_compute. reflexivity. Qed.

Lemma lexicon_count_codes (lexicon : gset string) ws :
  Unicode.lexicon_count (set_map codes lexicon) (codes <$> ws)
  = lexicon_count lexicon ws.
Proof.
  unfold Unicode.lexicon_count, lexicon_count.
  induction ws as [|w ws IH]; [done|].
  rewrite fmap_cons, !filter_cons.
  destruct (decide (w ∈ lexicon)) as [Hw|Hw].
  - rewrite decide_True; [simpl; by rewrite IH|].
    apply elem_of_map. by exists w.
  - rewrite decide_False; [done|].
    intros (w' & Heq%codes_inj & Hw')%elem_of_map. by subst.
Qed.

Lemma analyze_sentiment_latin1 s :
  _analyze_sentiment s
  = Unicode._analyze_sentiment latin1_lower latin1_isspace (codes s).
Proof.
  unfold _analyze_sentiment, Unicode._analyze_sentiment, latin1_lower,
    Unicode.split.
  rewrite text_of_codes.
  change (@nil N) with (codes EmptyString). rewrite split_go_codes.
  by rewrite positive_words_codes, negative_words_codes,
    !lexicon_count_codes.
Qed.

(** The lowercasing of [Py] on the capital letters. *)
Example py_lower_alphabet :
  Py.lower "ABCDEFGHIJKLMNOPQRSTUVWXYZ [\]^_ 0123456789"
  = "abcdefghijklmnopqrstuvwxyz [\]^_ 0123456789".
Proof. vm_compute. reflexivity. Qed.

(** ** Dictionaries *)

Section dict_facts.
Context {V : Type}.
Implicit Types (d : list (string * V)) (k : string) (v : V).

Lemma dict_get_set k v d k' :
  dict_get k' (dict_set k v d)
  = if decide (k = k') then Some v else dict_get k' d.
Proof.
  induction d as [|[k0 v0] d IH]; simpl.
  - by destruct (decide (k = k')).
  - destruct (decide (k0 = k)) as [->|Hk0]; simpl.
    + by destruct (decide (k = k')).
    + rewrite IH.
      destruct (decide (k0 = k')) as [->|]; [|done].
      by rewrite decide_False.
Qed.

Lemma dict_get_keys k d : is_Some (dict_get k d) ↔ k ∈ dict_keys d.
Proof.
  unfold dict_keys. induction d as [|[k0 v0] d IH]; csimpl.
  - split; [by intros [??]|by intros ?%elem_of_nil].
  - rewrite elem_of_cons, <-IH.
    destruct (decide (k0 = k)) as [->|]; [by intuition eauto|].
    naive_solver.
Qed.

Lemma dict_set_keys k v d k' :
  k' ∈ dict_keys (dict_set k v d) ↔ k' = k ∨ k' ∈ dict_keys d.
Proof.
  rewrite <-!dict_get_keys, dict_get_set.
  destruct (decide (k = k')) as [->|]; [by intuition eauto|].
  naive_solver.
Qed.

Lemma dict_set_NoDup k v d :
  NoDup (dict_keys d) → NoDup (dict_keys (dict_set k v d)).
Proof.
  unfold dict_keys.
  induction d as [|[k0 v0] d IH]; csimpl; intros Hd.
  - apply NoDup_singleton.
  - apply NoDup_cons in Hd as [Hk0 Hd].
    destruct (decide (k0 = k)) as [->|Hne]; csimpl.
    + by apply NoDup_cons.
    + apply NoDup_cons. split; [|by apply IH].
      intros [?|?]%dict_set_keys; done.
Qed.

Section comp.
Context {A : Type} (key : A → string) (val : A → V).

Lemma dict_fold_NoDup l d :
  NoDup (dict_keys d) → NoDup (dict_keys (foldl (dict_step key val) d l)).
Proof.
  revert d. induction l as [|x l IH]; intros d Hd; simpl; [done|].
  apply IH. by apply dict_set_NoDup.
Qed.

Lemma dict_fold_keys l d k :
  k ∈ dict_keys (foldl (dict_step key val) d l) ↔ k ∈ dict_keys d ∨ k ∈ key <$> l.
Proof.
  revert d. induction l as [|x l IH]; intros d; csimpl.
  - rewrite elem_of_nil. naive_solver.
  - rewrite IH. unfold dict_step at 1. rewrite dict_set_keys, elem_of_cons.
    naive_solver.
Qed.

Lemma dict_fold_get (g : string → V) l d k :
  (∀ x, x ∈ l → val x = g (key x)) →
  dict_get k (foldl (dict_step key val) d l)
  = if decide (k ∈ key <$> l) then Some (g k) else dict_get k d.
Proof.
  revert d. induction l as [|x l IH]; intros d Hg; csimpl.
  - done.
  - rewrite IH by (intros; apply Hg; by right).
    unfold dict_step at 1. rewrite dict_get_set.
    destruct (decide (k ∈ key <$> l)) as [Hin|Hin].
    + rewrite decide_True; [done|by right].
    + destruct (decide (key x = k)) as [<-|Hne].
      * rewrite decide_True by left. f_equal. apply Hg. left.
      * rewrite decide_False; [done|]. by intros [?|?]%elem_of_cons.
Qed.

Lemma dict_comp_NoDup l : NoDup (dict_keys (dict_comp key val l)).
Proof. apply dict_fold_NoDup. constructor. Qed.

Lemma dict_comp_keys l k :
  k ∈ dict_keys (dict_comp key val l) ↔ k ∈ key <$> l.
Proof.
  unfold dict_comp. rewrite dict_fold_keys.
  unfold dict_keys at 1. simpl. rewrite elem_of_nil. naive_solver.
Qed.

Lemma dict_comp_get (g : string → V) l k :
  (∀ x, x ∈ l → val x = g (key x)) →
  dict_get k (dict_comp key val l)
  = if decide (k ∈ key <$> l) then Some (g k) else None.
Proof. intros Hg. unfold dict_comp. by rewrite (dict_fold_get g). Qed.

Lemma dict_comp_elem_of (g : string → V) l k v :
  (∀ x, x ∈ l → val x = g (key x)) →
  (k, v) ∈ dict_comp key val l → k ∈ key <$> l ∧ v = g k.
Proof.
  intros Hg Hin.
  assert (k ∈ key <$> l) as Hk.
  { apply dict_comp_keys. unfold dict_keys. apply list_elem_of_fmap.
    by exists (k, v). }
  split; [done|].
  pose proof (dict_comp_get g l k Hg) as Hget.
  rewrite decide_True in Hget by done.
  pose proof (dict_comp_NoDup l) as Hnd.
  revert Hin Hget Hnd. unfold dict_keys.
  generalize (dict_comp key val l). intros d.
  induction d as [|[k0 v0] d IH]; csimpl; [by intros ?%elem_of_nil|].
  intros [Heq|Hin]%elem_of_cons Hget [Hk0 Hnd]%NoDup_cons.
  - simplify_eq. rewrite decide_True in Hget by done. congruence.
  - destruct (decide (k0 = k)) as [->|]; [|by apply IH].
    exfalso. apply Hk0. apply list_elem_of_fmap. by exists (k, v).
Qed.
End comp.
End dict_facts.

(** ** The pair loop *)

Section pair_loop_facts.
Context (d : list (string * gset string)).

Lemma shares_sym a b : shares d a b → shares d b a.
Proof. unfold shares. by rewrite (comm_L (∩)). Qed.

Lemma elem_of_pair_row ui rest a b :
  (a, b) ∈ (uj ← rest;
            if decide (min_common_words ≤ size (words_of d ui ∩ words_of d uj))
            then [(ui, uj); (uj, ui)] else [])
  ↔ shares d a b ∧ (a = ui ∧ b ∈ rest ∨ b = ui ∧ a ∈ rest).
Proof.
  rewrite list_elem_of_bind. split.
  - intros (uj & Hin & Huj). case_decide as Hs; [|by apply elem_of_nil in Hin].
    apply elem_of_cons in Hin as [Heq|Hin]; [simplify_eq; by auto|].
    apply list_elem_of_singleton in Hin. simplify_eq.
    split; [by apply shares_sym|by auto].
  - intros [Hs [[-> Hb]|[-> Ha]]].
    + exists b. split; [|done]. rewrite decide_True by done. left.
    + exists a. split; [|done].
      rewrite decide_True by by apply shares_sym. right. left.
Qed.

Lemma elem_of_pair_loop user_ids a b :
  NoDup user_ids →
  (a, b) ∈ pair_loop d user_ids
  ↔ a ∈ user_ids ∧ b ∈ user_ids ∧ a ≠ b ∧ shares d a b.
Proof.
  induction 1 as [|ui rest Hui Hnd IH]; simpl.
  - rewrite !elem_of_nil. naive_solver.
  - rewrite elem_of_app, elem_of_pair_row, IH, !elem_of_cons.
    split.
    + intros [[Hs [[-> Hb]|[-> Ha]]]|(Ha & Hb & Hne & Hs)].
      * split_and!; auto. by intros ->.
      * split_and!; auto. by intros ->.
      * by auto.
    + intros ([->|Ha] & [->|Hb] & Hne & Hs); [done|by auto..].
Qed.

Lemma pair_loop_NoDup user_ids :
  NoDup user_ids → NoDup (pair_loop d user_ids).
Proof.
  induction 1 as [|ui rest Hui Hnd IH]; simpl; [constructor|].
  apply NoDup_app. split_and!; [|
    intros [a b] [_ Hab]%elem_of_pair_row [Ha [Hb _]]%elem_of_pair_loop;
    [naive_solver|done] | done].
  apply NoDup_bind; [| |done].
  - intros x1 x2 [a b] Hx1 Hx2 H1 H2.
    repeat case_decide; rewrite ?elem_of_cons, ?elem_of_nil in *;
      naive_solver.
  - intros uj Huj. case_decide; [|constructor].
    apply NoDup_cons. split; [|apply NoDup_singleton].
    rewrite list_elem_of_singleton. intros ?. simplify_eq. done.
Qed.
End pair_loop_facts.

(** ** The recomputation, step by step *)

Lemma recompute_unfold faults s :
  recompute faults s =
  if faults AtFetch then mkOutcome (inl (Failure AtFetch)) s [EvFetch]
  else if decide (length (users_with_contents s) < 2)
  then mkOutcome (inr ()) s [EvFetch]
  else if faults AtBuild then mkOutcome (inl (Failure AtBuild)) s [EvFetch]
  else if faults AtClear
  then mkOutcome (inl (Failure AtClear)) s [EvFetch; EvClear]
  else
    let cleared := set_similar [] s in
    match relationships_of (users_with_contents s) with
    | [] => mkOutcome (inr ()) cleared [EvFetch; EvClear]
    | (_ :: _) as rels =>
        if faults AtWrite
        then mkOutcome (inl (Failure AtWrite)) cleared
               [EvFetch; EvClear; EvWrite rels]
        else mkOutcome (inr ())
               (set_similar (foldl (merge_edge cleared) [] rels) cleared)
               [EvFetch; EvClear; EvWrite rels]
    end.
Proof.
  unfold recompute, fetch, _clear_relationships, _create_relationships,
    checkpoint, emit, get_store, put_store, raise, mbind, M_bind, mret, M_ret.
  simpl.
  destruct (faults AtFetch); simpl; [done|].
  destruct (decide (length (users_with_contents s) < 2)); simpl; [done|].
  destruct (faults AtBuild); simpl; [done|].
  destruct (faults AtClear); simpl; [done|].
  destruct (relationships_of (users_with_contents s)); simpl; [done|].
  destruct (faults AtWrite); simpl; done.
Qed.

Lemma update_result faults s : result (_update_relationships faults s) = inr ().
Proof.
  unfold _update_relationships, try_except.
  destruct (result (recompute faults s)) as [e|[]] eqn:Hr; [done|].
  by rewrite Hr.
Qed.

Lemma update_final faults s :
  final (_update_relationships faults s) = final (recompute faults s).
Proof.
  unfold _update_relationships, try_except.
  by destruct (result (recompute faults s)).
Qed.

Lemma update_events faults s :
  events (_update_relationships faults s)
  = events (recompute faults s)
    ++ match result (recompute faults s) with
       | inl e => [EvLogError e; EvLogError e]
       | inr _ => []
       end.
Proof.
  unfold _update_relationships, try_except.
  destruct (result (recompute faults s)); simpl; [done|].
  by rewrite app_nil_r.
Qed.

(** What the corpus query returns. *)

Lemma contents_of_length s uid :
  0 < length (contents_of s uid) ↔ has_post s uid.
Proof.
  unfold contents_of, has_post. rewrite length_fmap.
  induction (posts s) as [|p ps IH].
  - simpl. rewrite Exists_nil. lia.
  - rewrite filter_cons, Exists_cons.
    destruct (decide (owner p = uid)); simpl; [|tauto].
    split; [by left|lia].
Qed.

Lemma fetched_ids s :
  (users_with_contents s).*1 = user_id <$> content_bearing s.
Proof.
  unfold users_with_contents, content_bearing.
  induction (users s) as [|u us IH]; [done|].
  rewrite fmap_cons, !filter_cons. simpl.
  destruct (decide (0 < length (contents_of s (user_id u)))) as [H|H],
    (decide (has_post s (user_id u))) as [H'|H']; csimpl;
    rewrite ?IH; try done; by apply contents_of_length in H || apply contents_of_length in H'.
Qed.

Lemma fetched_length s :
  length (users_with_contents s) = length (content_bearing s).
Proof. by rewrite <-(length_fmap fst), fetched_ids, length_fmap. Qed.

Lemma fetched_row s r :
  r ∈ users_with_contents s → r.2 = contents_of s r.1.
Proof.
  unfold users_with_contents.
  intros [_ (u & -> & _)%list_elem_of_fmap]%list_elem_of_filter. done.
Qed.

Lemma content_bearing_user s uid :
  uid ∈ user_id <$> content_bearing s →
  ∃ u l, match_user uid s = u :: l.
Proof.
  intros (u & -> & [_ Hu]%list_elem_of_filter)%list_elem_of_fmap.
  unfold match_user.
  destruct (filter _ (users s)) as [|u' l] eqn:Hf; [|by eauto].
  assert (u ∈ filter (λ u0, user_id u0 = user_id u) (users s)) as Hin
    by by apply list_elem_of_filter.
  rewrite Hf in Hin. by apply elem_of_nil in Hin.
Qed.

(** The word sets of [user_words] are the vocabulary sets. *)

Lemma list_to_set_mjoin (ls : list (list string)) :
  list_to_set (mjoin ls) =@{gset string} ⋃ (list_to_set <$> ls).
Proof.
  induction ls as [|l ls IH]; csimpl; [done|].
  by rewrite list_to_set_app_L, IH.
Qed.

Lemma split_filter_none (f : string → string) l :
  f EmptyString = EmptyString →
  mjoin (Py.split <$> (f <$> Py.filter_none l)) = mjoin (Py.split <$> (f <$> l)).
Proof.
  intros Hf. unfold Py.filter_none.
  induction l as [|x l IH]; [done|].
  rewrite filter_cons. destruct (decide (Py.truthy x)) as [Hx|Hx]; csimpl.
  - by rewrite IH.
  - rewrite IH. apply dec_stable in Hx as ->. by rewrite Hf.
Qed.

Lemma joined_words (cs : list string) :
  Py.split (Py.lower (Py.join " " (Py.filter_none cs)))
  = mjoin ((λ c, Py.split (Py.lower c)) <$> cs).
Proof.
  rewrite lower_join, split_join, split_filter_none by done.
  by rewrite <-list_fmap_compose.
Qed.

Lemma joined_vocabulary s uid :
  list_to_set
    (Py.split (Py.lower (Py.join " " (Py.filter_none (contents_of s uid)))))
  = spec_vocabulary s uid.
Proof.
  rewrite joined_words, list_to_set_mjoin. unfold spec_vocabulary, contents_of.
  by rewrite <-!list_fmap_compose.
Qed.

Lemma user_contents_keys s k :
  k ∈ dict_keys (user_contents (users_with_contents s))
  ↔ k ∈ user_id <$> content_bearing s.
Proof. unfold user_contents. by rewrite dict_comp_keys, fetched_ids. Qed.

Lemma user_contents_entry s kv :
  kv ∈ user_contents (users_with_contents s) →
  kv.2 = Py.join " " (Py.filter_none (contents_of s kv.1)).
Proof.
  destruct kv as [k v]. unfold user_contents. intros Hin.
  eapply (dict_comp_elem_of _ _
            (λ k, Py.join " " (Py.filter_none (contents_of s k)))) in Hin
    as [_ ->]; [done|].
  intros r Hr. by rewrite (fetched_row s r).
Qed.

Lemma user_words_keys s k :
  k ∈ dict_keys (user_words (users_with_contents s))
  ↔ k ∈ user_id <$> content_bearing s.
Proof.
  unfold user_words. rewrite dict_comp_keys. apply user_contents_keys.
Qed.

Lemma user_words_get s k :
  dict_get k (user_words (users_with_contents s))
  = if decide (k ∈ user_id <$> content_bearing s)
    then Some (spec_vocabulary s k) else None.
Proof.
  unfold user_words.
  rewrite (dict_comp_get _ _ (spec_vocabulary s)).
  - destruct (decide (k ∈ user_id <$> content_bearing s)) as [Hk|Hk].
    + rewrite decide_True; [done|]. by apply user_contents_keys.
    + rewrite decide_False; [done|]. intros H. by apply Hk, user_contents_keys.
  - intros kv Hkv. simpl. rewrite (user_contents_entry s kv Hkv).
    apply joined_vocabulary.
Qed.

Lemma words_of_fetched s k :
  k ∈ user_id <$> content_bearing s →
  words_of (user_words (users_with_contents s)) k = spec_vocabulary s k.
Proof. intros Hk. unfold words_of. rewrite user_words_get, decide_True; done. Qed.

(** The batch of a recomputation. *)

Lemma relationships_NoDup users_data : NoDup (relationships_of users_data).
Proof. apply pair_loop_NoDup, dict_comp_NoDup. Qed.

Lemma elem_of_relationships s a b :
  (a, b) ∈ relationships_of (users_with_contents s) ↔ spec_similar s a b.
Proof.
  unfold relationships_of.
  rewrite elem_of_pair_loop by apply dict_comp_NoDup.
  rewrite !user_words_keys. unfold spec_similar, shares.
  split.
  - intros (Ha & Hb & Hne & Hs). by rewrite !words_of_fetched in Hs.
  - intros (Hne & Ha & Hb & Hs). by rewrite !words_of_fetched.
Qed.

(** Writing a batch of distinct edges between stored users. *)

Lemma merge_edges_fresh s rels es :
  NoDup (es ++ rels) →
  (∀ a b, (a, b) ∈ rels → match_user a s ≠ [] ∧ match_user b s ≠ []) →
  foldl (merge_edge s) es rels = es ++ rels.
Proof.
  revert es. induction rels as [|[a b] rels IH]; intros es Hnd Hex; simpl.
  - by rewrite app_nil_r.
  - assert (merge_edge s es (a, b) = es ++ [(a, b)]) as ->.
    { unfold merge_edge. simpl.
      destruct (Hex a b) as [Ha Hb]; [left|].
      destruct (match_user a s); [done|]. destruct (match_user b s); [done|].
      rewrite decide_False; [done|].
      apply NoDup_app in Hnd as (_ & Hdisj & _).
      intros Hin. apply (Hdisj _ Hin). left. }
    rewrite IH.
    + by rewrite <-app_assoc.
    + by rewrite <-app_assoc.
    + intros a' b' Hin. apply Hex. by right.
Qed.

Lemma recompute_similar faults s :
  2 ≤ length (content_bearing s) →
  result (recompute faults s) = inr () →
  final (recompute faults s)
  = set_similar (relationships_of (users_with_contents s)) s.
Proof.
  intros Hlen. rewrite recompute_unfold.
  destruct (faults AtFetch); [done|].
  rewrite decide_False by (rewrite fetched_length; lia).
  destruct (faults AtBuild); [done|]. destruct (faults AtClear); [done|].
  simpl.
  destruct (relationships_of (users_with_contents s)) as [|e rels] eqn:Hrels;
    [done|].
  destruct (faults AtWrite); [done|]. intros _. simpl.
  change (foldl (merge_edge (set_similar [] s))
            (merge_edge (set_similar [] s) [] e) rels)
    with (foldl (merge_edge (set_similar [] s)) [] (e :: rels)).
  rewrite <-Hrels.
  rewrite merge_edges_fresh; [done|apply relationships_NoDup|].
  intros a b (_ & Ha & Hb & _)%elem_of_relationships.
  apply content_bearing_user in Ha as (?&?&Ha), Hb as (?&?&Hb).
  unfold match_user in *. simpl. by rewrite Ha, Hb.
Qed.

(** ** The edge set after a recomputation *)

Lemma recompute_early faults s :
  length (content_bearing s) < 2 → final (recompute faults s) = s.
Proof.
  intros Hlen. rewrite recompute_unfold.
  destruct (faults AtFetch); [done|].
  by rewrite decide_True by by rewrite fetched_length.
Qed.

Lemma spec_similar_two s a b :
  spec_similar s a b → 2 ≤ length (content_bearing s).
Proof.
  intros (Hne & Ha & Hb & _). rewrite <-(length_fmap user_id).
  destruct (user_id <$> content_bearing s) as [|x [|y l]]; simpl; [| |lia].
  - by apply elem_of_nil in Ha.
  - apply list_elem_of_singleton in Ha, Hb. congruence.
Qed.

(** C1, amended: after a recomputation that raised nothing, and that
    fetched at least two users or started with no edge stored, the stored
    similarity edges are exactly the pairs of the formula, each once, and
    users and posts are as before. *)
Theorem recompute_edge_set (faults : Faults) (s : Store) :
  result (recompute faults s) = inr () →
  2 ≤ length (content_bearing s) ∨ similar s = [] →
  let s' := final (_update_relationships faults s) in
  (∀ a b, (a, b) ∈ similar s' ↔ spec_similar s a b)
  ∧ NoDup (similar s')
  ∧ users s' = users s ∧ posts s' = posts s.
Proof.
  intros Hok Hcase s'. subst s'. rewrite update_final.
  destruct (decide (2 ≤ length (content_bearing s))) as [Hlen|Hlen].
  - rewrite recompute_similar by done. simpl.
    split_and!; [|apply relationships_NoDup|done..].
    intros a b. apply elem_of_relationships.
  - destruct Hcase as [?|Hnone]; [done|].
    rewrite recompute_early by lia. rewrite Hnone.
    split_and!; [|constructor|done..].
    intros a b. split; [by intros ?%elem_of_nil|].
    by intros ?%spec_similar_two.
Qed.

Lemma recompute_edge_set_witness :
  let s' := final (_update_relationships no_faults store_abc) in
  (∀ a b, (a, b) ∈ similar s' ↔ spec_similar store_abc a b)
  ∧ NoDup (similar s')
  ∧ users s' = users store_abc ∧ posts s' = posts store_abc.
Proof.
  apply (recompute_edge_set no_faults store_abc).
  - vm_compute. reflexivity.
  - left. vm_compute. lia.
Defined.

Example recompute_abc :
  similar (final (_update_relationships no_faults store_abc))
  = [("A", "B"); ("B", "A")].
Proof. vm_compute. reflexivity. Qed.

(** C1 as stated fails below two fetched users: nothing is raised, and the
    edge stored beforehand is still there although the formula has no pair. *)
Lemma stale_edge_survives :
  result (recompute no_faults store_stale) = inr ()
  ∧ ("A", "B") ∈ similar (final (_update_relationships no_faults store_stale))
  ∧ ¬ spec_similar store_stale "A" "B".
Proof.
  split_and!.
  - vm_compute. reflexivity.
  - vm_compute. left.
  - intros (_ & _ & Hb & _). revert Hb. vm_compute.
    intros Hb. inversion Hb as [|? ? ? Hn]. inversion Hn.
Qed.

(** ** Post creation *)

Lemma match_user_none s uid :
  uid ∉ user_id <$> users s → match_user uid s = [].
Proof.
  intros Hno. unfold match_user.
  destruct (filter _ (users s)) as [|u l] eqn:Hf; [done|].
  assert (u ∈ filter (λ u0, user_id u0 = uid) (users s)) as Hin
    by (rewrite Hf; left).
  apply list_elem_of_filter in Hin as [Hu Hin].
  exfalso. apply Hno, list_elem_of_fmap. by exists u.
Qed.

Lemma create_post_unfold uuid now faults uid text s :
  create_post uuid now faults uid text s =
  let created :=
    created_posts uuid now uid text (_analyze_sentiment text) s in
  let s1 := set_posts (posts s ++ created) s in
  match head created with
  | None => mkOutcome (inl (UserNotFound uid)) s1 [EvCreatePost uid]
  | Some p =>
      let o := _update_relationships faults s1 in
      mkOutcome (inr p) (final o) (EvCreatePost uid :: events o)
  end.
Proof.
  unfold create_post, insert_post, created_posts, raise, mbind, M_bind,
    mret, M_ret.
  simpl. destruct (head _) as [p|]; simpl; [|done].
  rewrite update_result. simpl. by rewrite app_nil_r.
Qed.

Lemma recompute_keeps_nodes faults s :
  users (final (recompute faults s)) = users s
  ∧ posts (final (recompute faults s)) = posts s.
Proof.
  rewrite recompute_unfold.
  repeat (case_match; simpl; try done).
Qed.

Lemma recompute_queries faults s :
  filter is_query (events (_update_relationships faults s))
  `prefix_of` [EvFetch; EvClear;
               EvWrite (relationships_of (users_with_contents s))].
Proof.
  rewrite update_events, recompute_unfold.
  repeat (case_match; simpl; try done);
    repeat (rewrite filter_cons; simpl);
    rewrite ?filter_nil; simpl;
    first [ by eexists [_; _] | by eexists [_] | by eexists [] | idtac ].
Qed.

(** ** Recomputation below two fetched users *)

Ltac not_in_list :=
  let H := fresh in
  unfold not; intros H;
  repeat (apply elem_of_cons in H as [H|H]; [discriminate H|]);
  by apply elem_of_nil in H.

(** C3: with fewer than two users owning a post the recomputation returns,
    the store is left as it was, and neither the clearing nor the writing
    query is issued. *)
Theorem recompute_below_two (faults : Faults) (s : Store) :
  length (content_bearing s) < 2 →
  let o := _update_relationships faults s in
  result o = inr ()
  ∧ final o = s
  ∧ (EvClear ∉ events o)
  ∧ (∀ rels, EvWrite rels ∉ events o).
Proof.
  intros Hlen o. subst o.
  rewrite update_result, update_final, update_events, recompute_unfold.
  rewrite <-fetched_length in Hlen.
  destruct (faults AtFetch); [|rewrite decide_True by done]; simpl;
    (split_and!; [done|done|not_in_list|intros rels; not_in_list]).
Qed.

Lemma recompute_below_two_witness :
  let o := _update_relationships no_faults store_stale in
  result o = inr ()
  ∧ final o = store_stale
  ∧ (EvClear ∉ events o)
  ∧ (∀ rels, EvWrite rels ∉ events o).
Proof.
  apply (recompute_below_two no_faults store_stale).
  vm_compute. lia.
Defined.

(** ** Failures inside the recomputation *)

(** C4: whatever step of the recomputation raises, [_update_relationships]
    returns normally after logging the exception; each query was issued at
    most once; and [create_post] returns the same result, with the same users
    and posts stored, as when nothing fails. *)
Theorem recomputation_failure_swallowed
    (uuid : nat → string) (now : string) (faults : Faults)
    (uid text : string) (s : Store) :
  let o := create_post uuid now faults uid text s in
  let o0 := create_post uuid now no_faults uid text s in
  let upd := _update_relationships faults in
  (∀ s1, result (upd s1) = inr ())
  ∧ (∀ s1, events (upd s1)
           = events (recompute faults s1)
             ++ match result (recompute faults s1) with
                | inl e => [EvLogError e; EvLogError e]
                | inr _ => []
                end)
  ∧ (∀ s1, filter is_query (events (upd s1))
           `prefix_of` [EvFetch; EvClear;
                        EvWrite (relationships_of (users_with_contents s1))])
  ∧ result o = result o0
  ∧ result o = match head (created_posts uuid now uid text
                                 (_analyze_sentiment text) s) with
               | Some p => inr p
               | None => inl (UserNotFound uid)
               end
  ∧ users (final o) = users (final o0)
  ∧ posts (final o) = posts (final o0).
Proof.
  intros o o0 upd. subst o o0 upd.
  split_and!.
  - intros s1. apply update_result.
  - intros s1. apply update_events.
  - intros s1. apply recompute_queries.
  - rewrite !create_post_unfold. simpl. by destruct (head _).
  - rewrite !create_post_unfold. simpl. by destruct (head _).
  - rewrite !create_post_unfold. simpl. destruct (head _); [|done]. simpl.
    rewrite !update_final.
    by rewrite !(proj1 (recompute_keeps_nodes _ _)).
  - rewrite !create_post_unfold. simpl. destruct (head _); [|done]. simpl.
    rewrite !update_final.
    by rewrite !(proj2 (recompute_keeps_nodes _ _)).
Qed.

Example write_failure_is_silent :
  let o := create_post sample_uuid "2024-05-02T09:00:00Z" (fail_at AtWrite)
             "C" "I love birds" store_abc in
  result o = inr (mkPost "uuid-0" "C" "I love birds" Positive
                    "2024-05-02T09:00:00Z" None)
  ∧ similar (final o) = []
  ∧ events o = [EvCreatePost "C"; EvFetch; EvClear;
                EvWrite [("A", "B"); ("B", "A"); ("A", "C"); ("C", "A");
                         ("B", "C"); ("C", "B")];
                EvLogError (Failure AtWrite); EvLogError (Failure AtWrite)].
Proof. vm_compute. done. Qed.

(** ** Posting for an unknown user *)

(** C5: for a [user_id] no stored user has, [create_post] raises the
    user-not-found exception, the store is as before (no post, same edges)
    and only the creation query was issued. *)
Theorem create_post_unknown_user
    (uuid : nat → string) (now : string) (faults : Faults)
    (uid text : string) (s : Store) :
  uid ∉ user_id <$> users s →
  create_post uuid now faults uid text s
  = mkOutcome (inl (UserNotFound uid)) s [EvCreatePost uid].
Proof.
  intros Hno. rewrite create_post_unfold. unfold created_posts.
  rewrite match_user_none by done.
  simpl. rewrite app_nil_r. by destruct s.
Qed.

Lemma create_post_unknown_user_witness :
  create_post sample_uuid "2024-05-02T09:00:00Z" no_faults "Z" "hello"
    store_abc
  = mkOutcome (inl (UserNotFound "Z")) store_abc [EvCreatePost "Z"].
Proof.
  apply (create_post_unknown_user sample_uuid _ no_faults "Z" "hello" store_abc).
  vm_compute. not_in_list.
Defined.

(** ** The batch handed to the writing query *)

Lemma relationships_no_self users_data a b :
  (a, b) ∈ relationships_of users_data → a ≠ b.
Proof.
  unfold relationships_of.
  rewrite elem_of_pair_loop by apply dict_comp_NoDup. tauto.
Qed.

Lemma written_batch faults s rels :
  EvWrite rels ∈ events (_update_relationships faults s) →
  rels = relationships_of (users_with_contents s).
Proof.
  rewrite update_events, recompute_unfold.
  repeat (case_match; simpl);
    intros Hin;
    repeat (apply elem_of_cons in Hin as [Hin|Hin]; [by simplify_eq|]);
    by apply elem_of_nil in Hin.
Qed.

(** C9: a batch handed to the writing query holds each directed edge once
    and no edge from a user to itself; it is the batch the pair loop built,
    in which an edge comes with its reverse. *)
Theorem written_batch_distinct (faults : Faults) (s : Store) (rels : list Edge) :
  EvWrite rels ∈ events (_update_relationships faults s) →
  NoDup rels
  ∧ (∀ a b, (a, b) ∈ rels → a ≠ b)
  ∧ (∀ a b, (a, b) ∈ rels → (b, a) ∈ rels)
  ∧ rels = relationships_of (users_with_contents s).
Proof.
  intros ->%written_batch. split_and!; [|..|done].
  - apply relationships_NoDup.
  - intros a b. apply relationships_no_self.
  - intros a b. unfold relationships_of.
    rewrite !elem_of_pair_loop by apply dict_comp_NoDup.
    intros (Ha & Hb & Hne & Hs). split_and!; [done..|by apply shares_sym].
Qed.

Lemma written_batch_distinct_witness :
  let rels := [("A", "B"); ("B", "A")] in
  NoDup rels
  ∧ (∀ a b, (a, b) ∈ rels → a ≠ b)
  ∧ (∀ a b, (a, b) ∈ rels → (b, a) ∈ rels)
  ∧ rels = relationships_of (users_with_contents store_abc).
Proof.
  apply (written_batch_distinct no_faults store_abc).
  vm_compute. right. right. left.
Defined.

(** ** Users whose posts are all empty *)

Lemma blank_vocabulary s uid :
  (∀ p, p ∈ posts s → owner p = uid → content p = EmptyString) →
  spec_vocabulary s uid = ∅.
Proof.
  intros Hblank. unfold spec_vocabulary.
  induction (posts s) as [|p ps IH]; [done|].
  rewrite filter_cons. destruct (decide (owner p = uid)) as [Hp|Hp]; csimpl.
  - rewrite (Hblank p) by (done || left). rewrite IH; [set_solver|].
    intros q Hq. apply Hblank. by right.
  - apply IH. intros q Hq. apply Hblank. by right.
Qed.

(** C10: a stored user whose posts all have empty content is among the
    fetched rows, so that one more user with a post reaches the threshold
    of two; its word set is empty; no edge of the batch, and no edge stored
    by a rebuild that completes, starts or ends at it. *)
Theorem blank_user_isolated (s : Store) (uid : string) :
  uid ∈ user_id <$> users s →
  has_post s uid →
  (∀ p, p ∈ posts s → owner p = uid → content p = EmptyString) →
  (uid, contents_of s uid) ∈ users_with_contents s
  ∧ 0 < length (contents_of s uid)
  ∧ Py.filter_none (contents_of s uid) = []
  ∧ (∀ v, v ≠ uid → v ∈ user_id <$> users s → has_post s v →
          2 ≤ length (users_with_contents s))
  ∧ words_of (user_words (users_with_contents s)) uid = ∅
  ∧ (∀ a b, (a, b) ∈ relationships_of (users_with_contents s) →
            a ≠ uid ∧ b ≠ uid)
  ∧ (∀ faults a b,
       result (recompute faults s) = inr () →
       2 ≤ length (users_with_contents s) →
       (a, b) ∈ similar (final (_update_relationships faults s)) →
       a ≠ uid ∧ b ≠ uid).
Proof.
  intros Hu Hp Hblank.
  assert (∀ v, v ∈ user_id <$> users s → has_post s v →
               v ∈ (users_with_contents s).*1) as Hfetched.
  { intros v (u & -> & Hin)%list_elem_of_fmap Hv. rewrite fetched_ids.
    apply list_elem_of_fmap. exists u. split; [done|].
    by apply list_elem_of_filter. }
  assert (∀ a b, (a, b) ∈ relationships_of (users_with_contents s) →
                 a ≠ uid ∧ b ≠ uid) as Hbatch.
  { intros a b (_ & _ & _ & Hs)%elem_of_relationships.
    unfold min_common_words in Hs.
    split; intros ->; rewrite (blank_vocabulary s uid) in Hs by done.
    - replace (∅ ∩ spec_vocabulary s b) with (∅ : gset string) in Hs
        by set_solver.
      rewrite size_empty in Hs. lia.
    - replace (spec_vocabulary s a ∩ ∅) with (∅ : gset string) in Hs
        by set_solver.
      rewrite size_empty in Hs. lia. }
  split_and!.
  - apply list_elem_of_fmap in Hu as (u & -> & Hu).
    unfold users_with_contents. apply list_elem_of_filter. split.
    + simpl. by apply contents_of_length.
    + apply list_elem_of_fmap. by exists u.
  - by apply contents_of_length.
  - unfold Py.filter_none, contents_of.
    induction (posts s) as [|p ps IH]; [done|].
    rewrite filter_cons.
    destruct (decide (owner p = uid)) as [Ho|Ho]; csimpl.
    + rewrite filter_cons_False.
      * apply IH. intros q Hq. apply Hblank. by right.
      * intros Hp'. apply Hp'. apply Hblank; [left|done].
    + apply IH. intros q Hq. apply Hblank. by right.
  - intros v Hne Hv Hpv.
    pose proof (Hfetched uid Hu Hp) as H1.
    pose proof (Hfetched v Hv Hpv) as H2.
    rewrite <-(length_fmap fst).
    destruct ((users_with_contents s).*1) as [|x [|y l]]; simpl; [|exfalso|lia].
    + by apply elem_of_nil in H1.
    + apply list_elem_of_singleton in H1, H2. congruence.
  - rewrite words_of_fetched; [by apply blank_vocabulary|].
    rewrite <-fetched_ids. by apply Hfetched.
  - done.
  - intros faults a b Hok Hlen. rewrite fetched_length in Hlen.
    rewrite update_final, recompute_similar by done. simpl. apply Hbatch.
Qed.

Lemma blank_user_isolated_witness :
  let s := store_blank in
  ("A", contents_of s "A") ∈ users_with_contents s
  ∧ 0 < length (contents_of s "A")
  ∧ Py.filter_none (contents_of s "A") = []
  ∧ (∀ v, v ≠ "A" → v ∈ user_id <$> users s → has_post s v →
          2 ≤ length (users_with_contents s))
  ∧ words_of (user_words (users_with_contents s)) "A" = ∅
  ∧ (∀ a b, (a, b) ∈ relationships_of (users_with_contents s) →
            a ≠ "A" ∧ b ≠ "A")
  ∧ (∀ faults a b,
       result (recompute faults s) = inr () →
       2 ≤ length (users_with_contents s) →
       (a, b) ∈ similar (final (_update_relationships faults s)) →
       a ≠ "A" ∧ b ≠ "A").
Proof.
  apply (blank_user_isolated store_blank "A").
  - vm_compute. left.
  - vm_compute. left. reflexivity.
  - intros p Hp Ho. revert Hp Ho. unfold store_blank, posts.
    rewrite !elem_of_cons, elem_of_nil.
    intros [->|[->|[->|[->|[]]]]]; done.
Defined.

Example recompute_blank :
  similar (final (_update_relationships no_faults store_blank))
  = [("B", "C"); ("C", "B")].
Proof. vm_compute. reflexivity. Qed.

(** ** Soft-deleted posts and the corpus *)

Lemma corpus_ignores_deleted s (mark : Post → option bool) :
  users_with_contents
    (set_posts
       ((λ p, mkPost (post_id p) (owner p) (content p) (sentiment p)
                (timestamp p) (mark p)) <$> posts s) s)
  = users_with_contents s.
Proof.
  unfold users_with_contents. simpl. f_equal.
  apply list_fmap_ext. intros _ u _. f_equal.
  unfold contents_of. simpl.
  induction (posts s) as [|p ps IH]; [done|].
  rewrite fmap_cons, !filter_cons. simpl.
  destruct (decide (owner p = user_id u)); csimpl; by rewrite IH.
Qed.

(** C6 fails on the code: the corpus query has no filter on the marker, so
    the tokens of a soft-deleted post produce edges. *)
Theorem deleted_post_feeds_similarity :
  deleted <$> posts store_deleted = [Some true; None]
  ∧ users_with_contents store_deleted = [("A", ["cats"]); ("B", ["cats"])]
  ∧ r_post_id <$> get_recent_posts store_deleted = ["p2"]
  ∧ similar (final (_update_relationships no_faults store_deleted))
    = [("A", "B"); ("B", "A")].
Proof. vm_compute. done. Qed.

(** ** Recent posts *)

Lemma newer_first_trans : Transitive newer_first.
Proof. intros a b c Hab Hbc. unfold newer_first in *. by etrans. Qed.

Lemma newer_first_total : Total newer_first.
Proof. intros a b. unfold newer_first. apply (total String.le). Qed.

#[local] Existing Instances newer_first_trans newer_first_total.

Lemma recent_rows_origin s r :
  r ∈ recent_rows s ↔
  ∃ p u, p ∈ posts s ∧ u ∈ users s ∧ deleted p = None
         ∧ user_id u = owner p ∧ r = recent_row p u.
Proof.
  unfold recent_rows, match_user. rewrite list_elem_of_bind. split.
  - intros (p & (u & -> & [Hu Hin]%list_elem_of_filter)%list_elem_of_fmap
              & [Hd Hp]%list_elem_of_filter).
    by exists p, u.
  - intros (p & u & Hp & Hu & Hd & Ho & ->). exists p. split.
    + apply list_elem_of_fmap. exists u. split; [done|].
      by apply list_elem_of_filter.
    + by apply list_elem_of_filter.
Qed.

(** X27: at most 10 rows; each row carries the id, content, sentiment and
    timestamp of a stored post without the soft-delete marker and the name
    and id of a stored user the post points to; rows are in non-increasing
    order of the timestamp strings; what is left out is no greater than what
    is returned. *)
Theorem get_recent_posts_rows (s : Store) :
  let rows := get_recent_posts s in
  length rows = length (recent_rows s) `min` 10
  ∧ (∀ r, r ∈ rows →
          ∃ p u, p ∈ posts s ∧ u ∈ users s ∧ deleted p = None
                 ∧ user_id u = owner p
                 ∧ r_post_id r = post_id p ∧ r_content r = content p
                 ∧ r_sentiment r = sentiment p
                 ∧ r_timestamp r = timestamp p
                 ∧ r_user_name r = name u ∧ r_user_id r = user_id u)
  ∧ StronglySorted (λ a b, String.le (r_timestamp b) (r_timestamp a)) rows
  ∧ (∃ rest, rows ++ rest ≡ₚ recent_rows s
             ∧ ∀ r r', r ∈ rows → r' ∈ rest →
                       String.le (r_timestamp r') (r_timestamp r)).
Proof.
  intros rows. subst rows. unfold get_recent_posts.
  pose proof (StronglySorted_merge_sort newer_first (recent_rows s)) as Hsorted.
  pose proof (merge_sort_Permutation newer_first (recent_rows s)) as Hperm.
  revert Hsorted Hperm. generalize (merge_sort newer_first (recent_rows s)).
  intros l Hsorted Hperm. split_and!.
  - rewrite length_take, <-Hperm. lia.
  - intros r Hr.
    assert (r ∈ recent_rows s) as Hin
      by (rewrite <-Hperm; by apply (subseteq_take 10 l)).
    apply recent_rows_origin in Hin as (p & u & Hp & Hu & Hd & Ho & ->).
    by exists p, u.
  - rewrite <-(take_drop 10 l) in Hsorted.
    by apply StronglySorted_app in Hsorted as (_ & ? & _).
  - exists (drop 10 l). split; [by rewrite take_drop|].
    rewrite <-(take_drop 10 l) in Hsorted.
    apply StronglySorted_app in Hsorted as (Hle & _ & _). eauto.
Qed.

(** C7 fails on the code: the rows are ordered as strings.  The post made
    on the whole second is listed above the post made 123 milliseconds
    after it. *)
Theorem recent_posts_not_newest_first :
  (λ r, (r_post_id r, r_timestamp r)) <$> get_recent_posts store_fraction
  = [("p1", "2024-05-01T10:00:01Z");
     ("p2", "2024-05-01T10:00:01.123Z");
     ("p3", "2024-05-01T10:00:00.250Z")]
  ∧ utc_instant "2024-05-01T10:00:01Z" = Some 20240501100001000000000%N
  ∧ utc_instant "2024-05-01T10:00:01.123Z" = Some 20240501100001123000000%N
  ∧ (20240501100001000000000 < 20240501100001123000000)%N.
Proof. vm_compute. done. Qed.

Example recent_abc :
  (λ r, (r_post_id r, r_user_id r, r_user_name r))
    <$> get_recent_posts store_abc
  = [("p3", "C", "Cat"); ("p2", "B", "Bob"); ("p1", "A", "Ann")].
Proof. vm_compute. reflexivity. Qed.

(** ** Registering users *)

Section rename.
Context (uid nm : string).

Lemma rename_ids (us : list User) :
  user_id <$> ((λ u, if decide (user_id u = uid) then mkUser uid nm else u)
                 <$> us)
  = user_id <$> us.
Proof.
  rewrite <-list_fmap_compose. apply list_fmap_ext. intros _ u _. simpl.
  by destruct (decide (user_id u = uid)).
Qed.

Lemma filter_id_none (us : list User) :
  uid ∉ user_id <$> us → filter (λ u, user_id u = uid) us = [].
Proof.
  induction us as [|u us IH]; [done|]. csimpl.
  rewrite not_elem_of_cons. intros [Hne Hno].
  rewrite filter_cons_False by done. by apply IH.
Qed.

Lemma filter_id_none_inv (us : list User) :
  filter (λ u, user_id u = uid) us = [] → uid ∉ user_id <$> us.
Proof.
  intros Hf (u & -> & Hu)%list_elem_of_fmap.
  by apply (filter_nil_not_elem_of _ _ u Hf).
Qed.

Lemma filter_id_renamed (us : list User) :
  NoDup (user_id <$> us) → uid ∈ user_id <$> us →
  filter (λ u, user_id u = uid)
    ((λ u, if decide (user_id u = uid) then mkUser uid nm else u) <$> us)
  = [mkUser uid nm].
Proof.
  induction us as [|u us IH]; csimpl; [by intros _ ?%elem_of_nil|].
  intros [Hu Hnd]%NoDup_cons Hin.
  destruct (decide (user_id u = uid)) as [Heq|Hne].
  - rewrite filter_cons_True by done. f_equal.
    apply filter_id_none. rewrite rename_ids. by rewrite <-Heq.
  - rewrite filter_cons_False by done. apply IH; [done|].
    apply elem_of_cons in Hin as [?|?]; [congruence|done].
Qed.
End rename.

Lemma create_user_spec uid nm s :
  unique_ids s →
  let o := create_user uid nm s in
  match_user uid (final o) = [mkUser uid nm]
  ∧ result o = inr (Some (mkUser uid nm))
  ∧ unique_ids (final o)
  ∧ (∀ u, user_id u ≠ uid → u ∈ users (final o) ↔ u ∈ users s)
  ∧ (uid ∈ user_id <$> users s → length (users (final o)) = length (users s))
  ∧ posts (final o) = posts s ∧ similar (final o) = similar s.
Proof.
  unfold unique_ids, create_user, match_user. simpl. intros Hnd.
  destruct (filter _ (users s)) as [|u0 l] eqn:Hf; simpl.
  - apply filter_id_none_inv in Hf as Hno.
    assert (filter (λ u, user_id u = uid) (users s ++ [mkUser uid nm])
            = [mkUser uid nm]) as Hnew.
    { rewrite filter_app, Hf. by rewrite filter_cons_True. }
    rewrite Hnew. split_and!; try done.
    + rewrite fmap_app. apply NoDup_app. split_and!; [done| |apply NoDup_singleton].
      intros x Hx ->%list_elem_of_singleton. done.
    + intros u Hu. rewrite elem_of_app, list_elem_of_singleton.
      split; [intros [? | ->]; [done|by simpl in Hu]|by left].
  - assert (uid ∈ user_id <$> users s) as Hin.
    { apply list_elem_of_fmap. exists u0.
      assert (u0 ∈ filter (λ u, user_id u = uid) (users s)) as Hu0
        by (rewrite Hf; left).
      by apply list_elem_of_filter in Hu0 as [-> ?]. }
    rewrite filter_id_renamed by done. split_and!; try done.
    + by rewrite rename_ids.
    + intros u Hu. rewrite list_elem_of_fmap. split.
      * intros (u' & -> & Hu'). destruct (decide (user_id u' = uid)); [|done].
        by simpl in Hu.
      * intros Hu'. exists u. by rewrite decide_False.
    + intros _. by rewrite length_fmap.
Qed.

(** Distinct ids hold in the empty store and are kept by every operation
    of the handler. *)

Lemma unique_ids_empty : unique_ids (mkStore [] [] []).
Proof. constructor. Qed.

Lemma unique_ids_create_user uid nm s :
  unique_ids s → unique_ids (final (create_user uid nm s)).
Proof. intros Hs. by destruct (create_user_spec uid nm s Hs) as (_ & _ & ? & _). Qed.

Lemma unique_ids_update faults s :
  unique_ids s → unique_ids (final (_update_relationships faults s)).
Proof.
  unfold unique_ids. rewrite update_final.
  by rewrite (proj1 (recompute_keeps_nodes faults s)).
Qed.

Lemma unique_ids_create_post uuid now faults uid text s :
  unique_ids s → unique_ids (final (create_post uuid now faults uid text s)).
Proof.
  intros Hs. rewrite create_post_unfold. simpl.
  destruct (head _); simpl; [|done]. by apply unique_ids_update.
Qed.

(** C8: on a store whose users have distinct ids, registering [uid] twice
    leaves exactly one user with that id, carrying the second name; the
    second call adds no user and touches no other user. *)
Theorem create_user_twice (uid name1 name2 : string) (s : Store) :
  unique_ids s →
  let o1 := create_user uid name1 s in
  let o2 := create_user uid name2 (final o1) in
  match_user uid (final o2) = [mkUser uid name2]
  ∧ result o2 = inr (Some (mkUser uid name2))
  ∧ unique_ids (final o2)
  ∧ length (users (final o2)) = length (users (final o1))
  ∧ (∀ u, user_id u ≠ uid → u ∈ users (final o2) ↔ u ∈ users s).
Proof.
  intros Hs o1 o2. subst o1 o2.
  destruct (create_user_spec uid name1 s Hs) as (Hm1 & _ & Hu1 & Ho1 & _).
  destruct (create_user_spec uid name2 _ Hu1) as (Hm2 & Hr2 & Hu2 & Ho2 & Hl2 & _).
  split_and!; try done.
  - apply Hl2. apply list_elem_of_fmap. exists (mkUser uid name1).
    split; [done|].
    assert (mkUser uid name1 ∈ match_user uid (final (create_user uid name1 s)))
      as Hin by (rewrite Hm1; left).
    by apply list_elem_of_filter in Hin as [_ ?].
  - intros u Hu. by rewrite Ho2, Ho1.
Qed.

Lemma create_user_twice_witness :
  let o1 := create_user "A" "Anna" store_abc in
  let o2 := create_user "A" "Annie" (final o1) in
  match_user "A" (final o2) = [mkUser "A" "Annie"]
  ∧ result o2 = inr (Some (mkUser "A" "Annie"))
  ∧ unique_ids (final o2)
  ∧ length (users (final o2)) = length (users (final o1))
  ∧ (∀ u, user_id u ≠ "A" → u ∈ users (final o2) ↔ u ∈ users store_abc).
Proof.
  apply (create_user_twice "A" "Anna" "Annie" store_abc).
  unfold unique_ids. vm_compute.
  repeat (constructor; [not_in_list|]). constructor.
Defined.

(** * Further properties of the handler *)

(** ** Listings *)

Lemma by_name_trans : Transitive by_name.
Proof. intros a b c Hab Hbc. unfold by_name in *. by etrans. Qed.

Lemma by_name_total : Total by_name.
Proof. intros a b. unfold by_name. apply (total String.le). Qed.

Lemma later_first_trans : Transitive later_first.
Proof. intros a b c Hab Hbc. unfold later_first in *. by etrans. Qed.

Lemma later_first_total : Total later_first.
Proof. intros a b. unfold later_first. apply (total String.le). Qed.

#[local] Existing Instances by_name_trans by_name_total
  later_first_trans later_first_total.

(** X1: [get_all_users] returns every stored user exactly once, in
    non-decreasing order of the names. *)
Theorem get_all_users_sorted (s : Store) :
  get_all_users s ≡ₚ users s
  ∧ StronglySorted by_name (get_all_users s).
Proof.
  split.
  - apply merge_sort_Permutation.
  - apply StronglySorted_merge_sort; apply _.
Qed.

Lemma match_user_unique s uid :
  unique_ids s → uid ∈ user_id <$> users s →
  ∃ u, match_user uid s = [u] ∧ user_id u = uid.
Proof.
  unfold unique_ids, match_user.
  induction (users s) as [|u us IH]; csimpl; [by intros _ ?%elem_of_nil|].
  intros [Hu Hnd]%NoDup_cons Hin.
  destruct (decide (user_id u = uid)) as [Heq|Hne].
  - exists u. rewrite filter_cons_True by done. split; [|done]. f_equal.
    apply (filter_id_none uid). by rewrite <-Heq.
  - rewrite filter_cons_False by done. apply IH; [done|].
    apply elem_of_cons in Hin as [?|?]; [congruence|done].
Qed.

Lemma user_post_rows_unique s uid :
  unique_ids s → uid ∈ user_id <$> users s →
  user_post_rows s uid
  = user_post_row <$> filter (λ p, owner p = uid) (posts s).
Proof.
  intros Hs Hin. unfold user_post_rows.
  destruct (match_user_unique s uid Hs Hin) as (u & -> & _).
  induction (filter _ (posts s)) as [|p ps IH]; csimpl; [done|].
  by f_equal.
Qed.

(** X2: the rows of [get_user_posts] are in non-increasing order of the
    timestamp strings; each row carries the id, content, sentiment and
    timestamp of a stored post that points to [uid], a stored user; and there
    is no row when no stored user has that id. *)
Theorem get_user_posts_sorted (s : Store) (uid : string) :
  StronglySorted (λ a b, String.le (u_timestamp b) (u_timestamp a))
    (get_user_posts s uid)
  ∧ (∀ r, r ∈ get_user_posts s uid →
          ∃ p, p ∈ posts s ∧ owner p = uid ∧ uid ∈ user_id <$> users s
               ∧ u_post_id r = post_id p ∧ u_content r = content p
               ∧ u_sentiment r = sentiment p
               ∧ u_timestamp r = timestamp p)
  ∧ (uid ∉ user_id <$> users s → get_user_posts s uid = []).
Proof.
  unfold get_user_posts. split_and!.
  - apply (StronglySorted_merge_sort later_first).
  - intros r. rewrite merge_sort_Permutation. unfold user_post_rows.
    intros (p & (u & -> & Hu)%list_elem_of_fmap
              & [Ho Hp]%list_elem_of_filter)%list_elem_of_bind.
    exists p. split_and!; try done.
    apply list_elem_of_filter in Hu as [<- Hu].
    apply list_elem_of_fmap. by exists u.
  - intros Hno. assert (user_post_rows s uid = []) as ->; [|done].
    unfold user_post_rows. rewrite match_user_none by done.
    by induction (filter _ (posts s)) as [|p ps IH].
Qed.

(** X3: for a stored user of a store with distinct ids, [get_user_posts]
    returns each of the user's posts exactly once, soft-deleted or not. *)
Theorem get_user_posts_complete (s : Store) (uid : string) :
  unique_ids s →
  uid ∈ user_id <$> users s →
  get_user_posts s uid
  ≡ₚ user_post_row <$> filter (λ p, owner p = uid) (posts s).
Proof.
  intros Hs Hin. unfold get_user_posts.
  by rewrite merge_sort_Permutation, user_post_rows_unique.
Qed.

Lemma get_user_posts_complete_witness :
  get_user_posts store_deleted "A"
  ≡ₚ user_post_row <$> filter (λ p, owner p = "A") (posts store_deleted).
Proof.
  apply (get_user_posts_complete store_deleted "A").
  - unfold unique_ids. vm_compute.
    repeat (constructor; [not_in_list|]). constructor.
  - vm_compute. left.
Defined.

Example user_posts_keep_deleted :
  u_post_id <$> get_user_posts store_deleted "A" = ["p1"]
  ∧ r_post_id <$> get_recent_posts store_deleted = ["p2"].
Proof. vm_compute. done. Qed.

(** ** More on registering users *)

Lemma create_user_users uid nm s :
  users (final (create_user uid nm s))
  = if decide (uid ∈ user_id <$> users s)
    then (λ u, if decide (user_id u = uid) then mkUser uid nm else u)
           <$> users s
    else users s ++ [mkUser uid nm].
Proof.
  unfold create_user, match_user. simpl.
  destruct (filter _ (users s)) as [|u0 l] eqn:Hf; simpl.
  - apply filter_id_none_inv in Hf. by rewrite decide_False.
  - rewrite decide_True; [done|].
    apply list_elem_of_fmap. exists u0.
    assert (u0 ∈ filter (λ u, user_id u = uid) (users s)) as Hu0
      by (rewrite Hf; left).
    by apply list_elem_of_filter in Hu0 as [-> ?].
Qed.

Lemma create_user_frame uid nm s :
  posts (final (create_user uid nm s)) = posts s
  ∧ similar (final (create_user uid nm s)) = similar s.
Proof.
  unfold create_user, match_user. simpl.
  by destruct (filter _ (users s)).
Qed.

Lemma create_user_ids uid nm s :
  user_id <$> users (final (create_user uid nm s))
  = if decide (uid ∈ user_id <$> users s)
    then user_id <$> users s else (user_id <$> users s) ++ [uid].
Proof.
  rewrite create_user_users. case_decide.
  - apply rename_ids.
  - by rewrite fmap_app.
Qed.

Lemma create_user_result uid nm s :
  result (create_user uid nm s)
  = inr (head (match_user uid (final (create_user uid nm s)))).
Proof. reflexivity. Qed.

Lemma store_eq s s' :
  users s = users s' → posts s = posts s' → similar s = similar s' → s = s'.
Proof. destruct s, s'. simpl. by intros -> -> ->. Qed.

(** X4: whatever the store, after [create_user uid nm] some user has id
    [uid], every user with that id is named [nm], the returned record is
    that user, users with another id are untouched, and posts and edges are
    as before. *)
Theorem create_user_effect (uid nm : string) (s : Store) :
  let o := create_user uid nm s in
  result o = inr (Some (mkUser uid nm))
  ∧ mkUser uid nm ∈ users (final o)
  ∧ (∀ u, u ∈ users (final o) → user_id u = uid → name u = nm)
  ∧ (∀ u, user_id u ≠ uid → u ∈ users (final o) ↔ u ∈ users s)
  ∧ posts (final o) = posts s
  ∧ similar (final o) = similar s.
Proof.
  intros o. subst o.
  destruct (create_user_frame uid nm s) as [Hp He].
  assert (∀ u, u ∈ users (final (create_user uid nm s)) →
               user_id u = uid → u = mkUser uid nm) as Hall.
  { intros u. rewrite create_user_users. case_decide as Hin.
    - intros (u' & -> & Hu')%list_elem_of_fmap.
      destruct (decide (user_id u' = uid)); [done|]. intros ?. done.
    - rewrite elem_of_app, list_elem_of_singleton.
      intros [Hu| ->] Hid; [|done].
      exfalso. apply Hin. apply list_elem_of_fmap. by exists u. }
  assert (mkUser uid nm ∈ users (final (create_user uid nm s))) as Hin.
  { rewrite create_user_users. case_decide as Hin.
    - apply list_elem_of_fmap in Hin as (u & -> & Hu).
      apply list_elem_of_fmap. exists u. by rewrite decide_True.
    - apply elem_of_app. right. left. }
  split_and!; try done.
  - rewrite create_user_result. do 2 f_equal.
    destruct (match_user uid (final (create_user uid nm s))) as [|u l] eqn:Hm.
    + exfalso. eapply (filter_nil_not_elem_of _ _ _ Hm); [|done]. done.
    + simpl. f_equal. apply Hall.
      * assert (u ∈ match_user uid (final (create_user uid nm s))) as Hu
          by (rewrite Hm; left).
        by apply list_elem_of_filter in Hu as [_ ?].
      * assert (u ∈ match_user uid (final (create_user uid nm s))) as Hu
          by (rewrite Hm; left).
        by apply list_elem_of_filter in Hu as [? _].
  - intros u Hu Hid. by rewrite (Hall u Hu Hid).
  - intros u Hne. rewrite create_user_users. case_decide as Hc.
    + rewrite list_elem_of_fmap. split.
      * intros (u' & -> & Hu'). destruct (decide (user_id u' = uid)); [|done].
        by simpl in Hne.
      * intros Hu'. exists u. by rewrite decide_False.
    + rewrite elem_of_app, list_elem_of_singleton.
      split; [intros [? | ->]; [done|by simpl in Hne]|by left].
Qed.

(** X5: registering the same id and name a second time changes nothing. *)
Theorem create_user_idempotent (uid nm : string) (s : Store) :
  let s1 := final (create_user uid nm s) in
  final (create_user uid nm s1) = s1
  ∧ result (create_user uid nm s1) = result (create_user uid nm s).
Proof.
  intros s1. subst s1.
  assert (final (create_user uid nm (final (create_user uid nm s)))
          = final (create_user uid nm s)) as Heq.
  { destruct (create_user_frame uid nm (final (create_user uid nm s)))
      as [Hp He].
    apply store_eq; [|done..].
    rewrite (create_user_users uid nm (final _)).
    rewrite decide_True.
    - rewrite create_user_users. case_decide as Hc.
      + rewrite <-list_fmap_compose. apply list_fmap_ext. intros _ u _. simpl.
        destruct (decide (user_id u = uid)); simpl;
          [by rewrite decide_True|by rewrite decide_False].
      + rewrite fmap_app. csimpl. rewrite decide_True by done. f_equal.
        erewrite list_fmap_ext; [apply list_fmap_id|].
        intros i u Hu. simpl. rewrite decide_False; [done|].
        intros Hid. apply Hc. apply list_elem_of_fmap. exists u.
        split; [done|]. by eapply list_elem_of_lookup_2.
    - rewrite create_user_ids. case_decide; [done|].
      apply elem_of_app. right. left. }
  split; [done|].
  by rewrite !create_user_result, Heq.
Qed.

(** ** Creating a post for a stored user *)

Lemma created_posts_unique uuid now uid text tag s :
  unique_ids s → uid ∈ user_id <$> users s →
  created_posts uuid now uid text tag s
  = [mkPost (uuid 0) uid text tag now None].
Proof.
  intros Hs Hin. unfold created_posts.
  by destruct (match_user_unique s uid Hs Hin) as (u & -> & _).
Qed.

(** X6: for a stored user of a store with distinct ids, [create_post]
    returns the new post, whatever happens in the recomputation; the post
    carries the computed sentiment and no soft-delete marker, it is the one
    post added, and the users are as before. *)
Theorem create_post_stored_user
    (uuid : nat → string) (now : string) (faults : Faults)
    (uid text : string) (s : Store) :
  unique_ids s →
  uid ∈ user_id <$> users s →
  let o := create_post uuid now faults uid text s in
  let p := mkPost (uuid 0) uid text (_analyze_sentiment text) now None in
  result o = inr p
  ∧ posts (final o) = posts s ++ [p]
  ∧ users (final o) = users s
  ∧ head (events o) = Some (EvCreatePost uid)
  ∧ EvFetch ∈ events o.
Proof.
  intros Hs Hin o p. subst o p.
  rewrite create_post_unfold. cbv zeta.
  rewrite created_posts_unique by done. simpl.
  rewrite update_final.
  destruct (recompute_keeps_nodes faults
              (set_posts (posts s ++ [mkPost (uuid 0) uid text
                 (_analyze_sentiment text) now None]) s)) as [-> ->].
  split_and!; try done.
  right. rewrite update_events, recompute_unfold.
  repeat (case_match; simpl); left.
Qed.

Lemma create_post_stored_user_witness :
  let o := create_post sample_uuid "2024-05-02T09:00:00Z" (fail_at AtClear)
             "C" "I love birds" store_abc in
  let p := mkPost (sample_uuid 0) "C" "I love birds"
             (_analyze_sentiment "I love birds") "2024-05-02T09:00:00Z" None in
  result o = inr p
  ∧ posts (final o) = posts store_abc ++ [p]
  ∧ users (final o) = users store_abc
  ∧ head (events o) = Some (EvCreatePost "C")
  ∧ EvFetch ∈ events o.
Proof.
  apply (create_post_stored_user sample_uuid "2024-05-02T09:00:00Z"
           (fail_at AtClear) "C" "I love birds" store_abc).
  - unfold unique_ids. vm_compute.
    repeat (constructor; [not_in_list|]). constructor.
  - vm_compute. right. right. left.
Defined.

(** ** Composition and frame of the recomputation *)

Lemma users_with_contents_ext s s' :
  users s = users s' → posts s = posts s' →
  users_with_contents s = users_with_contents s'.
Proof. unfold users_with_contents, contents_of. by intros -> ->. Qed.

Lemma no_faults_ok s : result (recompute no_faults s) = inr ().
Proof. rewrite recompute_unfold. simpl. by repeat case_match. Qed.

(** X7: a recomputation in which nothing fails is idempotent: running it
    again on its own outcome changes nothing. *)
Theorem recompute_idempotent (s : Store) :
  let s1 := final (_update_relationships no_faults s) in
  final (_update_relationships no_faults s1) = s1.
Proof.
  intros s1. subst s1. rewrite !update_final.
  destruct (decide (2 ≤ length (content_bearing s))) as [Hlen|Hlen].
  - rewrite (recompute_similar no_faults s) by (done || apply no_faults_ok).
    rewrite recompute_similar; [..|apply no_faults_ok].
    + by rewrite (users_with_contents_ext _ s).
    + by rewrite <-fetched_length,
        (users_with_contents_ext _ s), fetched_length.
  - rewrite (recompute_early no_faults s) by lia.
    by rewrite recompute_early by lia.
Qed.

(** X8: a recomputation, failing or not, changes none of the listings. *)
Theorem recompute_keeps_listings (faults : Faults) (s : Store) :
  let s1 := final (_update_relationships faults s) in
  get_all_users s1 = get_all_users s
  ∧ get_recent_posts s1 = get_recent_posts s
  ∧ ∀ uid, get_user_posts s1 uid = get_user_posts s uid.
Proof.
  intros s1. subst s1. rewrite update_final.
  destruct (recompute_keeps_nodes faults s) as [Hu Hp].
  unfold get_all_users, get_recent_posts, get_user_posts, recent_rows,
    user_post_rows, match_user.
  rewrite Hu, Hp. done.
Qed.

(** ** Writing edges *)

Section merge.
Context (s : Store).

Lemma merge_edge_cases es rel :
  merge_edge s es rel
  = if decide (stored_pair s rel ∧ rel ∉ es) then es ++ [rel] else es.
Proof.
  unfold merge_edge, stored_pair.
  destruct (match_user rel.1 s), (match_user rel.2 s);
    try (rewrite decide_False by naive_solver; done).
  destruct (decide (rel ∈ es)).
  - rewrite decide_False by naive_solver. done.
  - rewrite decide_True by naive_solver. done.
Qed.

Lemma elem_of_merge_edges rels es rel :
  rel ∈ foldl (merge_edge s) es rels
  ↔ rel ∈ es ∨ (rel ∈ rels ∧ stored_pair s rel).
Proof.
  revert es. induction rels as [|r rels IH]; intros es; simpl.
  - rewrite elem_of_nil. naive_solver.
  - rewrite IH, merge_edge_cases, elem_of_cons. case_decide as Hc.
    + rewrite elem_of_app, list_elem_of_singleton. naive_solver.
    + split; [naive_solver|].
      intros [?|[[->|?] ?]]; [by left| |by right].
      left. apply dec_stable. naive_solver.
Qed.

Lemma merge_edges_NoDup rels es :
  NoDup es → NoDup (foldl (merge_edge s) es rels).
Proof.
  revert es. induction rels as [|r rels IH]; intros es Hes; simpl; [done|].
  apply IH. rewrite merge_edge_cases. case_decide as Hc; [|done].
  apply NoDup_app. split_and!; [done| |apply NoDup_singleton].
  intros x Hx ->%list_elem_of_singleton. naive_solver.
Qed.

Lemma merge_edges_present rels es :
  (∀ rel, rel ∈ rels → stored_pair s rel → rel ∈ es) →
  foldl (merge_edge s) es rels = es.
Proof.
  induction rels as [|r rels IH]; intros Hin; simpl; [done|].
  rewrite merge_edge_cases, decide_False.
  - apply IH. intros rel Hrel. apply Hin. by right.
  - intros [Hst Hno]. apply Hno, Hin; [left|done].
Qed.
End merge.

Lemma write_unfold faults rels s :
  faults AtWrite = false →
  _create_relationships faults rels s
  = mkOutcome (inr ())
      (set_similar (foldl (merge_edge s) (similar s) rels) s)
      [EvWrite rels].
Proof.
  intros Hf.
  unfold _create_relationships, checkpoint, emit, get_store, put_store,
    mbind, M_bind, mret, M_ret.
  simpl. by rewrite Hf.
Qed.

(** X9: when the writing query succeeds, the stored edges are those stored
    before together with the rows of the batch whose two endpoints are
    stored users; no edge is stored twice; users and posts are untouched;
    and writing the same batch again changes nothing. *)
Theorem write_edges_effect (faults : Faults) (rels : list Edge) (s : Store) :
  faults AtWrite = false →
  NoDup (similar s) →
  let o := _create_relationships faults rels s in
  result o = inr ()
  ∧ (∀ rel, rel ∈ similar (final o)
            ↔ rel ∈ similar s ∨ (rel ∈ rels ∧ stored_pair s rel))
  ∧ NoDup (similar (final o))
  ∧ users (final o) = users s ∧ posts (final o) = posts s
  ∧ final (_create_relationships faults rels (final o)) = final o.
Proof.
  intros Hf Hnd o. subst o. rewrite !write_unfold by done. simpl.
  split_and!; try done.
  - intros rel. apply elem_of_merge_edges.
  - by apply merge_edges_NoDup.
  - unfold set_similar. simpl. f_equal.
    rewrite (merge_edges_present _ rels); [done|].
    intros rel Hrel Hst. apply elem_of_merge_edges. right. split; [done|].
    exact Hst.
Qed.

Lemma write_edges_effect_witness :
  let rels := [("A", "B"); ("C", "A"); ("A", "Z")] in
  let o := _create_relationships no_faults rels store_abc in
  result o = inr ()
  ∧ (∀ rel, rel ∈ similar (final o)
            ↔ rel ∈ similar store_abc ∨ (rel ∈ rels ∧ stored_pair store_abc rel))
  ∧ NoDup (similar (final o))
  ∧ users (final o) = users store_abc ∧ posts (final o) = posts store_abc
  ∧ final (_create_relationships no_faults rels (final o)) = final o.
Proof.
  apply (write_edges_effect no_faults _ store_abc).
  - reflexivity.
  - vm_compute. repeat (constructor; [not_in_list|]). constructor.
Defined.

Example write_skips_unknown_user :
  similar (final (_create_relationships no_faults
                    [("A", "B"); ("C", "A"); ("A", "Z")] store_abc))
  = [("C", "A"); ("A", "B")].
Proof. vm_compute. reflexivity. Qed.

(** ** Where a failing recomputation leaves the store *)

(** X10: when the corpus query or the construction of the word sets is
    made to fail, the recomputation leaves the whole store as it was and
    issues neither the clearing nor the writing query. *)
Theorem failure_before_clear_keeps_store (faults : Faults) (s : Store) :
  faults AtFetch = true ∨ faults AtBuild = true →
  let o := _update_relationships faults s in
  final o = s
  ∧ (EvClear ∉ events o)
  ∧ (∀ rels, EvWrite rels ∉ events o).
Proof.
  intros Hf o. subst o.
  rewrite update_final, update_events, recompute_unfold.
  destruct (faults AtFetch);
    [simpl; split_and!; [done|not_in_list|intros rels; not_in_list]|].
  case_decide;
    [simpl; split_and!; [done|not_in_list|intros rels; not_in_list]|].
  destruct (faults AtBuild);
    [simpl; split_and!; [done|not_in_list|intros rels; not_in_list]|].
  naive_solver.
Qed.

Lemma failure_before_clear_keeps_store_witness :
  let o := _update_relationships (fail_at AtBuild) store_abc in
  final o = store_abc
  ∧ (EvClear ∉ events o)
  ∧ (∀ rels, EvWrite rels ∉ events o).
Proof.
  apply (failure_before_clear_keeps_store (fail_at AtBuild) store_abc).
  right. reflexivity.
Defined.

(** ** What sequences of calls keep *)

Lemma elem_of_content_bearing s a :
  a ∈ user_id <$> content_bearing s
  ↔ a ∈ user_id <$> users s ∧ has_post s a.
Proof.
  unfold content_bearing. rewrite !list_elem_of_fmap. split.
  - intros (u & -> & [Hp Hu]%list_elem_of_filter). split; [by exists u|done].
  - intros [(u & -> & Hu) Hp]. exists u. split; [done|].
    by apply list_elem_of_filter.
Qed.

Lemma has_post_iff s a : has_post s a ↔ ∃ p, p ∈ posts s ∧ owner p = a.
Proof. unfold has_post. rewrite Exists_exists. naive_solver. Qed.

Lemma spec_similar_iff s s' a b :
  (∀ c, c ∈ user_id <$> content_bearing s
        ↔ c ∈ user_id <$> content_bearing s') →
  posts s = posts s' →
  spec_similar s a b ↔ spec_similar s' a b.
Proof.
  intros Hcb Hp. unfold spec_similar, spec_vocabulary.
  by rewrite !Hcb, Hp.
Qed.

Lemma spec_similar_ext s s' a b :
  users s = users s' → posts s = posts s' →
  spec_similar s a b ↔ spec_similar s' a b.
Proof.
  intros Hu Hp. apply spec_similar_iff; [|done].
  intros c. unfold content_bearing, has_post. by rewrite Hu, Hp.
Qed.

Lemma spec_vocabulary_app s extra uid :
  spec_vocabulary s uid
  ⊆ spec_vocabulary (set_posts (posts s ++ extra) s) uid.
Proof.
  unfold spec_vocabulary. simpl. rewrite filter_app, fmap_app.
  intros w. rewrite !elem_of_union_list.
  intros (X & HX & Hw). exists X. split; [|done].
  apply elem_of_app. by left.
Qed.

Lemma content_bearing_app s extra a :
  a ∈ user_id <$> content_bearing s →
  a ∈ user_id <$> content_bearing (set_posts (posts s ++ extra) s).
Proof.
  rewrite !elem_of_content_bearing, !has_post_iff. simpl.
  intros [Ha (p & Hp & Ho)]. split; [done|].
  exists p. split; [|done]. apply elem_of_app. by left.
Qed.

Lemma spec_similar_app s extra a b :
  spec_similar s a b →
  spec_similar (set_posts (posts s ++ extra) s) a b.
Proof.
  intros (Hne & Ha & Hb & Hsz). split_and!; [done|..].
  - by apply content_bearing_app.
  - by apply content_bearing_app.
  - etrans; [exact Hsz|]. apply subseteq_size.
    pose proof (spec_vocabulary_app s extra a).
    pose proof (spec_vocabulary_app s extra b).
    set_solver.
Qed.

Lemma spec_similar_create_user uid nm s a b :
  no_orphans s →
  spec_similar (final (create_user uid nm s)) a b ↔ spec_similar s a b.
Proof.
  intros Hno. destruct (create_user_frame uid nm s) as [Hp _].
  apply spec_similar_iff; [|done].
  intros c. rewrite !elem_of_content_bearing, !has_post_iff, Hp.
  rewrite create_user_ids. case_decide as Hin; [done|].
  rewrite elem_of_app, list_elem_of_singleton. split; [|naive_solver].
  intros [[?| ->] (p & Hpin & Ho)]; [naive_solver|].
  exfalso. apply Hin. rewrite <-Ho. by apply Hno.
Qed.

Lemma all_false_ok faults s :
  (∀ st, faults st = false) → result (recompute faults s) = inr ().
Proof.
  intros Hf. rewrite recompute_unfold, !Hf. simpl. by repeat case_match.
Qed.

Lemma recompute_similar_cases faults s :
  similar (final (recompute faults s)) = similar s
  ∨ similar (final (recompute faults s)) = []
  ∨ similar (final (recompute faults s))
    = relationships_of (users_with_contents s).
Proof.
  destruct (decide (2 ≤ length (content_bearing s))) as [Hlen|Hlen].
  - destruct (result (recompute faults s)) as [e|[]] eqn:Hr.
    + revert Hr. rewrite recompute_unfold.
      repeat (case_match; simpl; try done); auto.
    + rewrite recompute_similar by done. auto.
  - rewrite recompute_early by lia. auto.
Qed.

Lemma symmetric_relationships users_data a b :
  (a, b) ∈ relationships_of users_data → (b, a) ∈ relationships_of users_data.
Proof.
  unfold relationships_of.
  rewrite !elem_of_pair_loop by apply dict_comp_NoDup.
  intros (Ha & Hb & Hne & Hs). split_and!; [done..|by apply shares_sym].
Qed.

Lemma well_formed_update faults s extra :
  well_formed s →
  (∀ p, p ∈ extra → owner p ∈ user_id <$> users s) →
  well_formed
    (final (_update_relationships faults (set_posts (posts s ++ extra) s))).
Proof.
  intros (Hu & Hno & Hnd & Hsound & Hsym) Hextra.
  set (s1 := set_posts (posts s ++ extra) s).
  rewrite update_final.
  destruct (recompute_keeps_nodes faults s1) as [Hus Hps].
  assert (∀ a b, spec_similar s1 a b
                 ↔ spec_similar (final (recompute faults s1)) a b) as Hext
    by (intros; by apply spec_similar_ext).
  unfold well_formed, unique_ids, no_orphans, edges_sound.
  rewrite Hus, Hps. split_and!.
  - done.
  - simpl. intros p [Hp|Hp]%elem_of_app; [by apply Hno|by apply Hextra].
  - destruct (recompute_similar_cases faults s1) as [-> | [-> | ->]];
      [done|constructor|apply relationships_NoDup].
  - intros a b. rewrite <-Hext.
    destruct (recompute_similar_cases faults s1) as [-> | [-> | ->]].
    + intros Hab. by apply spec_similar_app, Hsound.
    + by intros ?%elem_of_nil.
    + by intros ?%elem_of_relationships.
  - intros a b.
    destruct (recompute_similar_cases faults s1) as [-> | [-> | ->]].
    + apply Hsym.
    + by intros ?%elem_of_nil.
    + apply symmetric_relationships.
Qed.

Lemma created_posts_owner uuid now uid text tag s p :
  p ∈ created_posts uuid now uid text tag s →
  owner p = uid ∧ uid ∈ user_id <$> users s.
Proof.
  unfold created_posts. intros (k & Hk)%list_elem_of_lookup_1.
  rewrite list_lookup_imap in Hk.
  destruct (match_user uid s !! k) as [u|] eqn:Hu; simplify_eq/=.
  split; [done|].
  apply list_elem_of_lookup_2, list_elem_of_filter in Hu as [<- Hu].
  apply list_elem_of_fmap. by exists u.
Qed.

Lemma create_post_final uuid now faults uid text s :
  final (create_post uuid now faults uid text s)
  = let created :=
      created_posts uuid now uid text (_analyze_sentiment text) s in
    match created with
    | [] => s
    | _ :: _ =>
        final (_update_relationships faults
                 (set_posts (posts s ++ created) s))
    end.
Proof.
  rewrite create_post_unfold. cbv zeta.
  destruct (created_posts _ _ _ _ _ s) as [|p l]; simpl; [|done].
  rewrite app_nil_r. by destruct s.
Qed.

Lemma well_formed_run_op s op : well_formed s → well_formed (run_op s op).
Proof.
  intros Hwf. destruct op as [uid nm|uuid now faults uid text]; cbn [run_op].
  - destruct Hwf as (Hu & Hno & Hnd & Hsound & Hsym).
    destruct (create_user_frame uid nm s) as [Hp He].
    unfold well_formed, no_orphans, edges_sound. rewrite Hp, He.
    split_and!; [by apply unique_ids_create_user| |done| |done].
    + intros p Hpin. rewrite create_user_ids. case_decide; [by apply Hno|].
      apply elem_of_app. left. by apply Hno.
    + intros a b Hab. apply spec_similar_create_user; [done|by apply Hsound].
  - rewrite create_post_final. cbv zeta.
    destruct (created_posts _ _ _ _ _ s) as [|p l] eqn:Hc; [done|].
    apply well_formed_update; [done|].
    intros q Hq. rewrite <-Hc in Hq.
    by apply created_posts_owner in Hq as [-> ?].
Qed.

Lemma well_formed_empty : well_formed empty_store.
Proof.
  unfold well_formed, unique_ids, no_orphans, edges_sound, empty_store. simpl.
  split_and!; try apply NoDup_nil_2; by intros * ?%elem_of_nil.
Qed.

(** X12: whatever users are registered and posts created from the empty
    store, and whichever recomputations fail on the way, user ids stay
    distinct, every post points to a stored user, no edge is stored twice,
    every stored edge joins two distinct users who share a word, and every
    edge is stored with its reverse. *)
Theorem sequences_keep_well_formed (ops : list Op) :
  let s := run_ops ops empty_store in
  unique_ids s
  ∧ no_orphans s
  ∧ NoDup (similar s)
  ∧ (∀ a b, (a, b) ∈ similar s → spec_similar s a b)
  ∧ (∀ a b, (a, b) ∈ similar s → (b, a) ∈ similar s).
Proof.
  intros s. subst s. change (well_formed (run_ops ops empty_store)).
  unfold run_ops. induction ops as [|op ops IH] using rev_ind.
  - apply well_formed_empty.
  - rewrite foldl_app. simpl. by apply well_formed_run_op.
Qed.

Lemma content_bearing_length_app s extra :
  length (content_bearing s)
  ≤ length (content_bearing (set_posts (posts s ++ extra) s)).
Proof.
  unfold content_bearing. simpl.
  induction (users s) as [|u us IH]; [done|].
  rewrite !filter_cons.
  destruct (decide (has_post s (user_id u))) as [Hp|Hp].
  - rewrite decide_True; [simpl; lia|].
    apply has_post_iff in Hp as (p & Hp & Ho). apply has_post_iff.
    exists p. split; [|done]. simpl. apply elem_of_app. by left.
  - case_decide; simpl; lia.
Qed.

Lemma exact_update faults s extra :
  (∀ st, faults st = false) →
  edges_sound s →
  edges_exact
    (final (_update_relationships faults (set_posts (posts s ++ extra) s))).
Proof.
  intros Hf Hsound. set (s1 := set_posts (posts s ++ extra) s).
  rewrite update_final.
  destruct (recompute_keeps_nodes faults s1) as [Hus Hps].
  intros a b. rewrite <-(spec_similar_ext s1) by done.
  destruct (decide (2 ≤ length (content_bearing s1))) as [Hlen|Hlen].
  - rewrite recompute_similar by (done || by apply all_false_ok).
    apply elem_of_relationships.
  - rewrite recompute_early by lia. simpl. split.
    + intros Hab%Hsound%spec_similar_two.
      pose proof (content_bearing_length_app s extra). subst s1. lia.
    + by intros ?%spec_similar_two.
Qed.

(** X13: from a store whose edges are all justified by the formula, a post
    created for a stored user with nothing failing leaves the stored edges
    exactly equal to the formula over the new corpus. *)
Theorem exact_after_post
    (uuid : nat → string) (now : string) (faults : Faults)
    (uid text : string) (s : Store) :
  (∀ st, faults st = false) →
  uid ∈ user_id <$> users s →
  edges_sound s →
  edges_exact (final (create_post uuid now faults uid text s)).
Proof.
  intros Hf Hin Hsound. rewrite create_post_final. cbv zeta.
  destruct (created_posts _ _ _ _ _ s) as [|p l] eqn:Hc.
  - exfalso. unfold created_posts in Hc.
    apply list_elem_of_fmap in Hin as (u & -> & Hu).
    assert (u ∈ match_user (user_id u) s) as Hm
      by by apply list_elem_of_filter.
    destruct (match_user (user_id u) s); [by apply elem_of_nil in Hm|done].
  - by apply exact_update.
Qed.

Lemma exact_after_post_witness :
  edges_exact (final (create_post sample_uuid "2024-05-02T09:00:00Z" no_faults
                        "A" "nice day" store_blank)).
Proof.
  apply (exact_after_post sample_uuid "2024-05-02T09:00:00Z" no_faults
           "A" "nice day" store_blank).
  - done.
  - vm_compute. left.
  - intros a b. by intros ?%elem_of_nil.
Defined.

Example post_after_blank :
  similar (final (create_post sample_uuid "2024-05-02T09:00:00Z" no_faults
                    "A" "nice day" store_blank))
  = [("A", "B"); ("B", "A"); ("A", "C"); ("C", "A"); ("B", "C"); ("C", "B")].
Proof. vm_compute. reflexivity. Qed.

Lemma exact_run_op s op :
  well_formed s → edges_exact s → fault_free op → edges_exact (run_op s op).
Proof.
  intros (Hu & Hno & Hnd & Hsound & Hsym) Hex Hf.
  destruct op as [uid nm|uuid now faults uid text]; cbn [run_op].
  - destruct (create_user_frame uid nm s) as [_ He].
    intros a b. rewrite He, spec_similar_create_user by done. apply Hex.
  - rewrite create_post_final. cbv zeta.
    destruct (created_posts _ _ _ _ _ s) as [|p l]; [done|].
    by apply exact_update.
Qed.

(** X14: after any sequence of registrations and post creations from the
    empty store in which no recomputation fails, the stored edges are
    exactly the pairs of the formula over the current users and posts. *)
Theorem exact_after_sequence (ops : list Op) :
  Forall fault_free ops →
  edges_exact (run_ops ops empty_store).
Proof.
  intros Hops.
  enough (well_formed (run_ops ops empty_store)
          ∧ edges_exact (run_ops ops empty_store)) as [_ ?] by done.
  unfold run_ops. induction ops as [|op ops IH] using rev_ind.
  - split; [apply well_formed_empty|].
    intros a b. simpl. split; [by intros ?%elem_of_nil|].
    intros Hab%spec_similar_two. vm_compute in Hab. lia.
  - apply Forall_app in Hops as [Hops [Hop _]%Forall_cons].
    destruct (IH Hops) as [Hwf Hex]. rewrite foldl_app. simpl.
    split; [by apply well_formed_run_op|by apply exact_run_op].
Qed.

Lemma exact_after_sequence_witness :
  edges_exact (run_ops sample_ops empty_store).
Proof.
  apply (exact_after_sequence sample_ops).
  unfold sample_ops. repeat constructor; done.
Defined.

Example sample_ops_outcome :
  let s := run_ops sample_ops empty_store in
  users s = [mkUser "A" "Anna"; mkUser "B" "Bob"]
  ∧ (post_id <$> posts s) = ["uuid-0"; "uuid-0"]
  ∧ similar s = [("A", "B"); ("B", "A")].
Proof. vm_compute. done. Qed.

(** ** Splitting, joining and lowercasing *)

Lemma string_app_nil_r (s : string) : s +:+ EmptyString = s.
Proof.
  induction s as [|a s IH]; [done|].
  change (String a (s +:+ EmptyString) = String a s). by rewrite IH.
Qed.

Lemma string_app_assoc (s1 s2 s3 : string) :
  (s1 +:+ s2) +:+ s3 = s1 +:+ (s2 +:+ s3).
Proof.
  induction s1 as [|a s1 IH]; [done|].
  change (String a ((s1 +:+ s2) +:+ s3) = String a (s1 +:+ (s2 +:+ s3))).
  by rewrite IH.
Qed.

Lemma split_go_word cur t :
  Forall (λ c, Py.is_space c = false) (String.list_ascii_of_string t) →
  Py.split_go cur t = Py.push (cur +:+ t) [].
Proof.
  revert cur. induction t as [|c t IH]; intros cur Ht; simpl.
  - by rewrite string_app_nil_r.
  - apply Forall_cons in Ht as [Hc Ht]. rewrite Hc, IH by done.
    by rewrite string_app_assoc.
Qed.

Lemma split_token t : is_token t → Py.split t = [t].
Proof.
  intros [Hne Ht]. unfold Py.split. rewrite split_go_word by done.
  simpl. by destruct t.
Qed.

(** X15: splitting the join, with single spaces, of tokens gives the tokens
    back. *)
Theorem split_join_tokens (ts : list string) :
  Forall is_token ts → Py.split (Py.join " " ts) = ts.
Proof.
  intros Hts. rewrite split_join.
  induction Hts as [|t ts Ht Hts IH]; csimpl; [done|].
  by rewrite split_token, IH.
Qed.

Lemma split_join_tokens_witness :
  Py.split (Py.join " " ["I"; "love"; "dogs"]) = ["I"; "love"; "dogs"].
Proof.
  apply (split_join_tokens ["I"; "love"; "dogs"]).
  repeat constructor; done.
Defined.

(** X16: joining the tokens of a text with single spaces and splitting
    again gives the same tokens: runs of whitespace, and whitespace at the
    ends, leave no trace. *)
Theorem split_join_split (s : string) :
  Py.split (Py.join " " (Py.split s)) = Py.split s.
Proof.
  rewrite split_join.
  pose proof (split_tokens s) as Hts.
  induction Hts as [|t ts Ht Hts IH]; csimpl; [done|].
  by rewrite split_token, IH.
Qed.

Lemma lower_char_idemp c : Py.lower_char (Py.lower_char c) = Py.lower_char c.
Proof. by destruct c as [[] [] [] [] [] [] [] []]. Qed.

Lemma lower_char_space c : Py.is_space (Py.lower_char c) = Py.is_space c.
Proof. by destruct c as [[] [] [] [] [] [] [] []]. Qed.

Lemma lower_idemp s : Py.lower (Py.lower s) = Py.lower s.
Proof.
  induction s as [|c s IH]; simpl; [done|]. by rewrite lower_char_idemp, IH.
Qed.

Lemma push_lower cur acc :
  Py.push (Py.lower cur) (Py.lower <$> acc) = Py.lower <$> Py.push cur acc.
Proof. by destruct cur. Qed.

Lemma split_go_lower cur s :
  Py.split_go (Py.lower cur) (Py.lower s) = Py.lower <$> Py.split_go cur s.
Proof.
  revert cur. induction s as [|c s IH]; intros cur; simpl.
  - apply (push_lower cur []).
  - rewrite lower_char_space. destruct (Py.is_space c).
    + rewrite <-push_lower. f_equal. apply (IH EmptyString).
    + rewrite <-IH. by rewrite lower_app.
Qed.

(** X17: on text of code points below 256, lowercasing is idempotent and
    commutes with splitting, as it neither makes nor removes whitespace; and
    the sentiment of a text is that of its lowercased form. *)
Theorem lower_facts (s : string) :
  Py.lower (Py.lower s) = Py.lower s
  ∧ Py.split (Py.lower s) = Py.lower <$> Py.split s
  ∧ _analyze_sentiment (Py.lower s) = _analyze_sentiment s.
Proof.
  split_and!.
  - apply lower_idemp.
  - apply (split_go_lower EmptyString s).
  - unfold _analyze_sentiment. by rewrite lower_idemp.
Qed.

Lemma lexicon_count_app lexicon ws1 ws2 :
  lexicon_count lexicon (ws1 ++ ws2)
  = lexicon_count lexicon ws1 + lexicon_count lexicon ws2.
Proof. unfold lexicon_count. by rewrite filter_app, length_app. Qed.

Lemma words_app_space a b :
  Py.split (Py.lower (a +:+ " " +:+ b))
  = Py.split (Py.lower a) ++ Py.split (Py.lower b).
Proof.
  rewrite lower_app. change (Py.lower (" " +:+ b))
    with (String " "%char (Py.lower b)).
  unfold Py.split at 1. by rewrite split_go_space.
Qed.

(** X18: for two texts put together with a space in between, the number of
    lexicon words is the sum of the two numbers; so adding a text without
    any lexicon word leaves the sentiment as it was. *)
Theorem sentiment_of_concatenation (a b : string) :
  (∀ lexicon,
     lexicon_count lexicon (Py.split (Py.lower (a +:+ " " +:+ b)))
     = lexicon_count lexicon (Py.split (Py.lower a))
       + lexicon_count lexicon (Py.split (Py.lower b)))
  ∧ (lexicon_count positive_words (Py.split (Py.lower b)) = 0 →
     lexicon_count negative_words (Py.split (Py.lower b)) = 0 →
     _analyze_sentiment (a +:+ " " +:+ b) = _analyze_sentiment a).
Proof.
  assert (∀ lexicon,
     lexicon_count lexicon (Py.split (Py.lower (a +:+ " " +:+ b)))
     = lexicon_count lexicon (Py.split (Py.lower a))
       + lexicon_count lexicon (Py.split (Py.lower b))) as Hadd.
  { intros lexicon. by rewrite words_app_space, lexicon_count_app. }
  split; [done|]. intros Hp Hn. unfold _analyze_sentiment. cbv zeta.
  rewrite !Hadd, Hp, Hn, !Nat.add_0_r. done.
Qed.

Example sentiment_of_concatenation_ex :
  _analyze_sentiment ("bad day" +:+ " " +:+ "at the office")
  = _analyze_sentiment "bad day".
Proof. vm_compute. reflexivity. Qed.

(** X19: the word set the recomputation builds for a fetched user is the
    union, over the user's fetched contents, of the tokens of the lowercased
    content: joining the contents with single spaces neither merges tokens
    of two posts nor loses one. *)
Theorem user_words_union (s : Store) (uid : string) (contents : list string) :
  (uid, contents) ∈ users_with_contents s →
  words_of (user_words (users_with_contents s)) uid
  = ⋃ ((λ c, list_to_set (Py.split (Py.lower c))) <$> contents).
Proof.
  intros Hin. pose proof (fetched_row s _ Hin) as Hc. simpl in Hc.
  rewrite words_of_fetched.
  - unfold spec_vocabulary. rewrite Hc. unfold contents_of.
    by rewrite <-list_fmap_compose.
  - rewrite <-fetched_ids. apply list_elem_of_fmap. by exists (uid, contents).
Qed.

Lemma user_words_union_witness :
  words_of (user_words (users_with_contents store_blank)) "B"
  = ⋃ ((λ c, list_to_set (Py.split (Py.lower c))) <$> ["good day"]).
Proof.
  apply (user_words_union store_blank "B" ["good day"]).
  vm_compute. right. left.
Defined.

(** ** A new post in the recent posts *)

Lemma recent_rows_ext s s' :
  users s = users s' → posts s = posts s' → recent_rows s = recent_rows s'.
Proof. unfold recent_rows, match_user. by intros -> ->. Qed.

Lemma recent_rows_app s extra :
  recent_rows (set_posts (posts s ++ extra) s)
  = recent_rows s ++ recent_rows (set_posts extra s).
Proof.
  unfold recent_rows, match_user. simpl.
  by rewrite filter_app, bind_app.
Qed.

(** X20: a post created for a stored user, with a timestamp string
    strictly above those of all stored posts in the order of strings, is the
    first row of [get_recent_posts]; the row carries the post's id, content,
    sentiment and timestamp and the user's name and id. *)
Theorem greatest_timestamp_first
    (uuid : nat → string) (now : string) (faults : Faults)
    (uid text : string) (s : Store) :
  unique_ids s →
  uid ∈ user_id <$> users s →
  (∀ q, q ∈ posts s → sorts_after now (timestamp q)) →
  let o := create_post uuid now faults uid text s in
  ∃ u r, u ∈ users s ∧ user_id u = uid
         ∧ head (get_recent_posts (final o)) = Some r
         ∧ r_post_id r = uuid 0 ∧ r_content r = text
         ∧ r_sentiment r = _analyze_sentiment text
         ∧ r_timestamp r = now
         ∧ r_user_name r = name u ∧ r_user_id r = uid.
Proof.
  intros Hs Hin Hlater o. subst o.
  set (p := mkPost (uuid 0) uid text (_analyze_sentiment text) now None).
  destruct (match_user_unique s uid Hs Hin) as (u & Hm & Hu).
  exists u, (recent_row p u).
  split_and!; [|done| |done..|by rewrite <-Hu].
  { assert (u ∈ match_user uid s) as Hum by (rewrite Hm; left).
    by apply list_elem_of_filter in Hum as [_ ?]. }
  set (s1 := set_posts (posts s ++ [p]) s).
  assert (recent_rows (final (create_post uuid now faults uid text s))
          = recent_rows s ++ [recent_row p u]) as Hrows.
  { rewrite create_post_final. cbv zeta.
    rewrite created_posts_unique by done. fold p.
    rewrite (recent_rows_ext _ s1);
      [|rewrite update_final; apply recompute_keeps_nodes..].
    subst s1. rewrite recent_rows_app. f_equal.
    unfold recent_rows. cbn [posts set_posts].
    rewrite filter_cons_True by done. rewrite filter_nil.
    rewrite bind_singleton.
    change (match_user (owner p) (set_posts [p] s)) with (match_user uid s).
    by rewrite Hm. }
  unfold get_recent_posts. rewrite Hrows.
  set (r := recent_row p u).
  pose proof (StronglySorted_merge_sort newer_first (recent_rows s ++ [r]))
    as Hsorted.
  pose proof (merge_sort_Permutation newer_first (recent_rows s ++ [r]))
    as Hperm.
  revert Hsorted Hperm.
  generalize (merge_sort newer_first (recent_rows s ++ [r])).
  intros l Hsorted Hperm.
  destruct l as [|h t].
  { symmetry in Hperm. apply Permutation_nil_r in Hperm.
    by destruct (recent_rows s). }
  simpl. f_equal.
  assert (h ∈ recent_rows s ++ [r]) as Hh by (rewrite <-Hperm; left).
  apply elem_of_app in Hh as [Hh|Hh]; [|by apply list_elem_of_singleton in Hh].
  exfalso.
  apply recent_rows_origin in Hh as (q & u' & Hq & _ & _ & _ & Hrow).
  destruct (Hlater q Hq) as [Hle Hne].
  assert (r ∈ h :: t) as Hr.
  { rewrite Hperm. apply elem_of_app. right. left. }
  apply StronglySorted_cons in Hsorted as [Hall _].
  assert (newer_first h r) as Hnf.
  { apply elem_of_cons in Hr as [Heq|Hr].
    - rewrite Heq. unfold newer_first. reflexivity.
    - by eapply Forall_forall in Hall. }
  unfold newer_first in Hnf. rewrite Hrow in Hnf. simpl in Hnf.
  apply Hne. by apply (anti_symm String.le).
Qed.

Lemma greatest_timestamp_first_witness :
  let o := create_post sample_uuid "2024-05-02T09:00:00Z" no_faults
             "B" "hello" store_abc in
  ∃ u r, u ∈ users store_abc ∧ user_id u = "B"
         ∧ head (get_recent_posts (final o)) = Some r
         ∧ r_post_id r = sample_uuid 0 ∧ r_content r = "hello"
         ∧ r_sentiment r = _analyze_sentiment "hello"
         ∧ r_timestamp r = "2024-05-02T09:00:00Z"
         ∧ r_user_name r = name u ∧ r_user_id r = "B".
Proof.
  apply (greatest_timestamp_first sample_uuid "2024-05-02T09:00:00Z" no_faults
           "B" "hello" store_abc).
  - unfold unique_ids. vm_compute.
    repeat (constructor; [not_in_list|]). constructor.
  - vm_compute. right. left.
  - intros q Hq. revert Hq. unfold store_abc, posts.
    rewrite !elem_of_cons, elem_of_nil.
    intros [->|[->|[->|[]]]]; (split; [by vm_compute|done]).
Defined.

(** ** The connection *)

Lemma close_driver env c : driver (close env c) = None.
Proof.
  unfold close. destruct (driver c) eqn:Hd; [|done].
  simpl. by destruct (exn_of (replies env (calls c))).
Qed.

Lemma close_calls env c : calls c ≤ calls (close env c).
Proof.
  unfold close. destruct (driver c); [|done].
  simpl. destruct (exn_of (replies env (calls c))); simpl; lia.
Qed.

Lemma close_closed env c : driver c = None → close env c = c.
Proof. intros Hd. unfold close. by rewrite Hd. Qed.

(** X21: [close] leaves the handler without a driver, also when
    [driver.close()] raises; it calls the driver at most once, and not at
    all when there is none, so that closing twice is closing once. *)
Theorem close_effect (env : Env) (c : Conn) :
  driver (close env c) = None
  ∧ close env (close env c) = close env c
  ∧ calls (close env c)
    = match driver c with Some _ => S (calls c) | None => calls c end
  ∧ (driver c = None → close env c = c).
Proof.
  split_and!.
  - apply close_driver.
  - apply close_closed, close_driver.
  - unfold close. destruct (driver c); [|done].
    simpl. by destruct (exn_of (replies env (calls c))).
  - apply close_closed.
Qed.

Lemma check_connection_cases env c :
  match check_connection env c with
  | (None, c') =>
      is_Some (driver c) ∧ driver c' = driver c
      ∧ replies env (calls c) = Fine ∧ calls c' = S (calls c)
      ∧ error_lines c' = error_lines c
  | (Some e, c') =>
      driver c' = None ∧ calls c ≤ calls c'
      ∧ error_lines c < error_lines c'
      ∧ (is_Some (driver c) → exn_of (replies env (calls c)) = Some e)
  end.
Proof.
  unfold check_connection. destruct (driver c) as [d|] eqn:Hd.
  - simpl. destruct (replies env (calls c)) eqn:Hr; simpl.
    + by rewrite Hd.
    + split_and!; [apply close_driver|etrans; [|apply close_calls]; simpl; lia
                  | |done].
      unfold close. simpl. rewrite Hd. simpl.
      destruct (exn_of (replies env (S (calls c)))); simpl; lia.
    + split_and!; [apply close_driver|etrans; [|apply close_calls]; simpl; lia
                  | |done].
      unfold close. simpl. rewrite Hd. simpl.
      destruct (exn_of (replies env (S (calls c)))); simpl; lia.
  - rewrite close_closed by done. simpl. split_and!; [done|lia|lia|].
    by intros [??].
Qed.

(** X22: when [check_connection] returns, the handler had a driver, keeps
    it, and the one call made, the probe, was answered; when it raises, the
    handler is left without a driver, an error line was logged, and the
    exception is the one the probe raised. *)
Theorem check_connection_effect (env : Env) (c : Conn) :
  match check_connection env c with
  | (None, c') =>
      is_Some (driver c) ∧ driver c' = driver c
      ∧ replies env (calls c) = Fine ∧ calls c' = S (calls c)
      ∧ error_lines c' = error_lines c
  | (Some e, c') =>
      driver c' = None ∧ calls c ≤ calls c'
      ∧ error_lines c < error_lines c'
      ∧ (is_Some (driver c) → exn_of (replies env (calls c)) = Some e)
  end.
Proof. apply check_connection_cases. Qed.

Lemma connect_once_cases env c :
  driver c = None →
  match connect_once env c with
  | (None, c') => is_Some (driver c') ∧ probed env c'
  | (Some e, c') => driver c' = None
  end.
Proof.
  intros Hd. unfold connect_once. rewrite Hd. simpl.
  destruct (exn_of (replies env (calls c))) as [e|] eqn:Hr; [by simpl|].
  pose proof (check_connection_cases env
    (set_driver (Some (calls c))
       (mkConn None (S (calls c)) (error_lines c)))) as Hc.
  destruct (check_connection env _) as [[e|] c2]; simpl in *.
  - by destruct Hc as (-> & _).
  - destruct Hc as (_ & -> & Hf & Hk & _). split; [done|].
    by exists (S (calls c)).
Qed.

Lemma connect_retry_cases env n c :
  driver c = None →
  match connect_retry env n c with
  | (None, c') => is_Some (driver c') ∧ probed env c'
  | (Some e, c') => driver c' = None
  end.
Proof.
  revert c. induction n as [|n IH]; intros c Hd; simpl;
    pose proof (connect_once_cases env c Hd) as Hc;
    destruct (connect_once env c) as [[[]|] c1]; try done.
  by apply IH.
Qed.

Lemma connect_cases env c :
  driver c = None →
  match connect env c with
  | (None, c') => is_Some (driver c') ∧ probed env c'
  | (Some e, c') => driver c' = None
  end.
Proof. apply connect_retry_cases. Qed.

Lemma ensure_connection_cases env c :
  match ensure_connection env c with
  | (None, c') => is_Some (driver c') ∧ probed env c'
  | (Some e, c') => driver c' = None
  end.
Proof.
  unfold ensure_connection.
  assert (∀ c1, match connect env (close env c1) with
                | (None, c') => is_Some (driver c') ∧ probed env c'
                | (Some e, c') => driver c' = None
                end) as Hre
    by (intros c1; apply connect_cases, close_driver).
  assert (∀ c1, match check_connection env c1 with
                | (None, c') => is_Some (driver c') ∧ probed env c'
                | (Some e, c') => driver c' = None
                end) as Hck.
  { intros c1. pose proof (check_connection_cases env c1) as Hc.
    destruct (check_connection env c1) as [[e|] c2]; [by destruct Hc|].
    destruct Hc as (Hs & -> & Hf & Hk & _). split; [done|].
    by exists (calls c1). }
  destruct (driver c) as [d|] eqn:Hd.
  - pose proof (Hck c) as Hc.
    destruct (check_connection env c) as [[e|] c1]; [apply Hre|done].
  - destruct (connect env c) as [[e|] c1]; [apply Hre|].
    pose proof (Hck c1) as Hc.
    destruct (check_connection env c1) as [[e|] c2]; [apply Hre|done].
Qed.

(** X23: when [ensure_connection] returns, the handler has a driver and the
    last call made, a probe, was answered; when it raises, the handler is
    left without a driver. *)
Theorem ensure_connection_outcome (env : Env) (c : Conn) :
  match ensure_connection env c with
  | (None, c') => is_Some (driver c') ∧ probed env c'
  | (Some e, c') => driver c' = None
  end.
Proof. apply ensure_connection_cases. Qed.

(** X24: on a handler whose driver answers the probe, [ensure_connection]
    makes that one call and changes nothing else. *)
Theorem ensure_connection_healthy (env : Env) (c : Conn) (d : nat) :
  driver c = Some d →
  replies env (calls c) = Fine →
  ensure_connection env c
  = (None, mkConn (Some d) (S (calls c)) (error_lines c)).
Proof.
  intros Hd Hr. unfold ensure_connection, check_connection.
  rewrite Hd. simpl. rewrite Hr. simpl. by rewrite Hd.
Qed.

Lemma ensure_connection_healthy_witness :
  ensure_connection flaky_env (mkConn (Some 0) 4 0)
  = (None, mkConn (Some 0) 5 0).
Proof.
  apply (ensure_connection_healthy flaky_env (mkConn (Some 0) 4 0) 0);
    reflexivity.
Defined.

(** X25: on a handler whose driver fails the probe, [ensure_connection]
    closes it and, if the server then accepts a new driver and answers its
    probe, returns with that new driver after four calls in all. *)
Theorem ensure_connection_recovers (env : Env) (c : Conn) (d : nat) :
  driver c = Some d →
  replies env (calls c) ≠ Fine →
  replies env (S (S (calls c))) = Fine →
  replies env (S (S (S (calls c)))) = Fine →
  ∃ c', ensure_connection env c = (None, c')
        ∧ driver c' = Some (S (S (calls c)))
        ∧ calls c' = S (S (S (S (calls c)))).
Proof.
  intros Hd Hr H2 H3.
  unfold ensure_connection, check_connection. rewrite Hd. simpl.
  destruct (exn_of (replies env (calls c))) as [e|] eqn:He;
    [|by destruct (replies env (calls c))].
  simpl. unfold close at 2. simpl. rewrite Hd. simpl.
  set (c1 := set_driver None _).
  assert (driver c1 = None ∧ calls c1 = S (S (calls c))) as [Hd1 Hk1].
  { subst c1. by destruct (exn_of (replies env (S (calls c)))). }
  rewrite close_closed by done.
  clearbody c1. destruct c1 as [d1 k1 e1]. simpl in Hd1, Hk1. subst d1 k1.
  unfold connect. simpl.
  destruct (retries env (S (S (calls c)))) as [|n];
    simpl; unfold connect_once, check_connection; simpl;
    rewrite H2; simpl; rewrite H3; simpl; eauto.
Qed.

Lemma ensure_connection_recovers_witness :
  ∃ c', ensure_connection flaky_env (mkConn (Some 0) 3 0) = (None, c')
        ∧ driver c' = Some 5
        ∧ calls c' = 7.
Proof.
  apply (ensure_connection_recovers flaky_env (mkConn (Some 0) 3 0) 0);
    done.
Defined.

(** X26: [connect] does nothing on a handler that has a driver; without
    one, it either returns with a driver whose probe was answered, or
    raises and leaves no driver.  It gives up at once on an exception other
    than the two retried. *)
Theorem connect_outcome (env : Env) (c : Conn) :
  (is_Some (driver c) → connect env c = (None, c))
  ∧ (driver c = None →
     match connect env c with
     | (None, c') => is_Some (driver c') ∧ probed env c'
     | (Some e, c') => driver c' = None
     end)
  ∧ (driver c = None → replies env (calls c) = Broken →
     connect env c
     = (Some OtherError,
        mkConn None (S (calls c)) (S (error_lines c)))).
Proof.
  split_and!.
  - intros [d Hd]. unfold connect.
    destruct (retries env (calls c)); simpl; unfold connect_once;
      by rewrite Hd.
  - apply connect_cases.
  - intros Hd Hr. unfold connect.
    destruct (retries env (calls c)); simpl; unfold connect_once;
      rewrite Hd; simpl; rewrite Hr; simpl; unfold log_line; simpl;
      by rewrite ?Hd.
Qed.

Example init_flaky :
  init flaky_env = (None, mkConn (Some 4) 6 3).
Proof. vm_compute. reflexivity. Qed.
